(** * bdlcc::Cache: a shallow embedding of [bdlcc_cache.h]

    The cache couples a hash map [d_map] (key -> (value handle, list
    iterator)) with a doubly linked list [d_queue] of keys (the eviction
    queue).  A [bsl::list] iterator stays valid while its node lives, so a
    list node is modelled by its address ([node]) paired with the key it
    holds, and an iterator is the address of the node it designates.

    Every member function runs under the reader-writer lock, so a call is
    one atomic transition of the cache.  A call may return, leave by a C++
    exception, or hit undefined behaviour (a failed [BSLS_ASSERT], an
    invalid iterator); the three are the constructors of [outcome].

    Keys are taken up to the equality functor [EQUAL], so [KEY] comes with a
    decidable equality and [d_map] is a finite map over it; [HASH] only
    matters as a place where user code may throw.  Exceptions thrown by
    allocation and by user code during an insertion are injected through a
    [fault] argument; the post-eviction callback is a function telling
    whether an invocation throws, and its invocations are recorded in a
    trace. *)

From stdpp Require Import gmap list.
From Stdlib Require Import ZArith.

Module CacheEvictionPolicy.

Inductive Enum : Set :=
| e_LRU   (* Least Recently Used *)
| e_FIFO. (* First In, First Out *)

#[global] Instance Enum_eq_dec : EqDecision Enum.
Proof. solve_decision. Defined.

End CacheEvictionPolicy.
Import CacheEvictionPolicy.

(** Address of a node of [bsl::list<KEY>]. *)
Abbreviation node := nat.

(** How a call ends. *)
Inductive outcome (A : Type) : Type :=
| Ret (a : A)   (* normal return *)
| Throw         (* a C++ exception leaves the call *)
| Undef.        (* undefined behaviour: failed assertion, invalid iterator *)
Arguments Ret {A} a.
Arguments Throw {A}.
Arguments Undef {A}.

(** Where user code or an allocation throws during one insertion. *)
Inductive fault : Set :=
| NoFault
| ThrowPopulate   (* [createInplace] in [populateValuePtrType] *)
| ThrowFind       (* hash or equality functor in [d_map.find(key)] *)
| ThrowPushBack   (* [d_queue.push_back(key)] *)
| ThrowEmplace.   (* [d_map.emplace(...)] *)

#[global] Instance fault_eq_dec : EqDecision fault.
Proof. solve_decision. Defined.

(** [int], 32 bits wide: a value is kept as the integer it stands for, in
    [-2^31, 2^31), and an addition wraps around as the machine's does.  (The
    language leaves the overflow of a signed addition undefined; the
    compiled code adds modulo 2^32, which is what is written out here.) *)
Definition int_wrap (z : Z) : Z := ((z + 2 ^ 31) mod 2 ^ 32 - 2 ^ 31)%Z.

Definition int_add (a b : Z) : Z := int_wrap (a + b).

Definition INT_MAX : Z := (2 ^ 31 - 1)%Z.

Section Cache.
Context {KEY : Type} {KEY_eq : EqDecision KEY} {KEY_countable : Countable KEY}.
Context {VALUE : Type}.

(** [bsl::shared_ptr<VALUE>]: null, or a handle to a value. *)
Abbreviation ValuePtrType := (option VALUE).

(** [bsl::function<void(const ValuePtrType&)>]; an empty function object is
    [None].  The callback is user code: what it does is recorded in the
    trace [g_calls], and whether an invocation throws may depend on the
    invocations made so far and on the handle it receives. *)
Abbreviation PostEvictionCallback :=
  (option (list ValuePtrType → ValuePtrType → bool)).

Abbreviation KVType := (KEY * ValuePtrType)%type.
Abbreviation QueueType := (list (node * KEY)).
Abbreviation MapValue := (ValuePtrType * node)%type.

Record Cache : Type := mkCache {
  d_map : gmap KEY MapValue;
  d_queue : QueueType;
  d_evictionPolicy : Enum;
  d_lowWatermark : nat;     (* [bsl::size_t]; only ever compared with [d_map.size()] *)
  d_highWatermark : nat;
  d_postEvictionCallback : PostEvictionCallback;
  (* environment of the object *)
  g_fresh : node;                 (* next address the list allocator hands out *)
  g_calls : list ValuePtrType     (* handles passed to the callback, oldest first *)
}.

Definition set_map (m : gmap KEY MapValue) (s : Cache) : Cache :=
  mkCache m (d_queue s) (d_evictionPolicy s) (d_lowWatermark s)
          (d_highWatermark s) (d_postEvictionCallback s) (g_fresh s) (g_calls s).

Definition set_queue (q : QueueType) (s : Cache) : Cache :=
  mkCache (d_map s) q (d_evictionPolicy s) (d_lowWatermark s)
          (d_highWatermark s) (d_postEvictionCallback s) (g_fresh s) (g_calls s).

Definition set_callback (cb : PostEvictionCallback) (s : Cache) : Cache :=
  mkCache (d_map s) (d_queue s) (d_evictionPolicy s) (d_lowWatermark s)
          (d_highWatermark s) cb (g_fresh s) (g_calls s).

Definition set_fresh (n : node) (s : Cache) : Cache :=
  mkCache (d_map s) (d_queue s) (d_evictionPolicy s) (d_lowWatermark s)
          (d_highWatermark s) (d_postEvictionCallback s) n (g_calls s).

Definition set_calls (l : list ValuePtrType) (s : Cache) : Cache :=
  mkCache (d_map s) (d_queue s) (d_evictionPolicy s) (d_lowWatermark s)
          (d_highWatermark s) (d_postEvictionCallback s) (g_fresh s) l.

(** ** The monad of member functions: state plus outcome *)

Definition M (A : Type) : Type := Cache → Cache * outcome A.

Definition ret {A} (a : A) : M A := λ s, (s, Ret a).
Definition throw {A} : M A := λ s, (s, Throw).
Definition undef {A} : M A := λ s, (s, Undef).
Definition get : M Cache := λ s, (s, Ret s).
Definition modify (f : Cache → Cache) : M unit := λ s, (f s, Ret tt).

Definition bind {A B} (m : M A) (f : A → M B) : M B := λ s,
  match m s with
  | (s', Ret a) => f a s'
  | (s', Throw) => (s', Throw)
  | (s', Undef) => (s', Undef)
  end.

Notation "'let*' x := m 'in' f" := (bind m (λ x, f))
  (at level 10, x name, m at level 100, f at level 200, only parsing).
Notation "m >> f" := (bind m (λ _, f))
  (at level 90, right associativity, only parsing).

(** ** bsl::list primitives on the eviction queue *)

(** [&*d_queue.rbegin()], or 0 on an empty list. *)
Definition queue_last (q : QueueType) : option node := fst <$> last q.

(** The key held by the node at address [c], if [c] is a node of [q]. *)
Fixpoint queue_holds (c : node) (q : QueueType) : option KEY :=
  match q with
  | [] => None
  | (c', k) :: q' => if decide (c' = c) then Some k else queue_holds c q'
  end.

Definition queue_without (c : node) (q : QueueType) : QueueType :=
  filter (λ n, n.1 ≠ c) q.

(** [d_queue.erase(it)]; erasing through an iterator that designates no
    node of the list is undefined. *)
Definition queue_erase (it : node) : M unit := λ s,
  match queue_holds it (d_queue s) with
  | Some _ => (set_queue (queue_without it (d_queue s)) s, Ret tt)
  | None => (s, Undef)
  end.

(** [d_queue.splice(d_queue.end(), d_queue, it)]: relink the node at the
    back; the node, hence its address, is kept. *)
Definition queue_splice_back (it : node) : M unit := λ s,
  match queue_holds it (d_queue s) with
  | Some k => (set_queue (queue_without it (d_queue s) ++ [(it, k)]) s, Ret tt)
  | None => (s, Undef)
  end.

(** [d_queue.push_back(key)] followed by [--d_queue.end()]: a new node at a
    fresh address. *)
Definition queue_push_back (ft : fault) (key : KEY) : M node := λ s,
  if decide (ft = ThrowPushBack) then (s, Throw)
  else let c := g_fresh s in
       (set_fresh (S c) (set_queue (d_queue s ++ [(c, key)]) s), Ret c).

(** [d_queue.front()]. *)
Definition queue_front : M KEY := λ s,
  match d_queue s with
  | (_, k) :: _ => (s, Ret k)
  | [] => (s, Undef)
  end.

(** ** Cache_QueueProctor *)

(** The destructor of an unreleased proctor: pop the back of the list until
    its last element is the one recorded at construction.  Worked on the
    reversed list; popping an empty list is undefined. *)
Fixpoint proctor_pop (d_last_p : option node) (rq : QueueType) : outcome QueueType :=
  match rq with
  | [] => if decide (d_last_p = None) then Ret [] else Undef
  | (c, k) :: rq' =>
      if decide (d_last_p = Some c) then Ret rq else proctor_pop d_last_p rq'
  end.

Definition proctor_destroy (d_last_p : option node) (s : Cache) : Cache * outcome unit :=
  match proctor_pop d_last_p (reverse (d_queue s)) with
  | Ret rq => (set_queue (reverse rq) s, Ret tt)
  | _ => (s, Undef)
  end.

(** Scope of a proctor created on [d_queue]: [body] ends with
    [proctor.release()], so the destructor acts only when [body] throws. *)
Definition with_proctor {A} (body : M A) : M A := λ s,
  let d_last_p := queue_last (d_queue s) in
  match body s with
  | (s', Throw) =>
      match proctor_destroy d_last_p s' with
      | (s'', Ret _) => (s'', Throw)
      | (s'', _) => (s'', Undef)
      end
  | r => r
  end.

(** ** bsl::unordered_map primitives *)

(** [d_map.find(key)]: the entry found, [None] for [d_map.end()]. *)
Definition map_find (ft : fault) (key : KEY) : M (option (KEY * MapValue)) := λ s,
  if decide (ft = ThrowFind) then (s, Throw)
  else (s, Ret ((λ mv, (key, mv)) <$> d_map s !! key)).

(** [d_map.emplace(key, mapValue)] on an absent key. *)
Definition map_emplace (ft : fault) (key : KEY) (mv : MapValue) : M unit := λ s,
  if decide (ft = ThrowEmplace) then (s, Throw)
  else (set_map (<[key := mv]> (d_map s)) s, Ret tt).

(** ** Private manipulators *)

Definition invoke_callback (value : ValuePtrType) : M unit := λ s,
  match d_postEvictionCallback s with
  | Some cb =>
      let s' := set_calls (g_calls s ++ [value]) s in
      if cb (g_calls s) value then (s', Throw) else (s', Ret tt)
  | None => (s, Ret tt)
  end.

Definition evictItem (mapIt : KEY * MapValue) : M unit :=
  let value := mapIt.2.1 in
  queue_erase mapIt.2.2 >>
  modify (λ s, set_map (delete mapIt.1 (d_map s)) s) >>
  invoke_callback value.

(** [d_map.find(d_queue.front())] with [BSLS_ASSERT(mapIt != d_map.end())]. *)
Definition find_front : M (KEY * MapValue) :=
  let* k := queue_front in
  let* mapIt := map_find NoFault k in
  match mapIt with
  | Some e => ret e
  | None => undef
  end.

(** The [while] loop of [enforceHighWatermark]; an iteration that returns
    erases one map entry, so [size (d_map s)] iterations always suffice. *)
Fixpoint evict_loop (fuel : nat) : M unit :=
  match fuel with
  | O => ret tt
  | S fuel' =>
      let* s := get in
      if (d_lowWatermark s <=? size (d_map s)) && (0 <? size (d_map s)) then
        let* mapIt := find_front in
        evictItem mapIt >>
        evict_loop fuel'
      else ret tt
  end.

Definition enforceHighWatermark : M unit :=
  let* s := get in
  if size (d_map s) <? d_highWatermark s then ret tt
  else evict_loop (size (d_map s)).

(** The flags [moveKey] and [moveValuePtr] choose between copying and moving
    the caller's objects; the cache receives the same key and handle either
    way. *)
Definition insertValuePtrMoveImp (ft : fault) (key : KEY) (moveKey : bool)
    (valuePtr : ValuePtrType) (moveValuePtr : bool) : M bool :=
  enforceHighWatermark >>
  let* mapIt := map_find ft key in
  match mapIt with
  | Some (_, (_, queueIt)) =>
      modify (λ s, set_map (<[key := (valuePtr, queueIt)]> (d_map s)) s) >>
      queue_splice_back queueIt >>
      ret false
  | None =>
      with_proctor (
        let* queueIt := queue_push_back ft key in
        map_emplace ft key (valuePtr, queueIt)) >>
      ret true
  end.

Definition populateValuePtrType (ft : fault) (value : VALUE) : M ValuePtrType :=
  if decide (ft = ThrowPopulate) then throw else ret (Some value).

(** ** Public manipulators *)

Definition clear : M unit :=
  modify (λ s, set_queue [] (set_map ∅ s)).

Definition erase (key : KEY) : M Z :=
  let* mapIt := map_find NoFault key in
  match mapIt with
  | None => ret 1%Z
  | Some e => evictItem e >> ret 0%Z
  end.

(** The loop of [eraseBulk]; [count] is the [int] counter. *)
Fixpoint eraseBulk_from (count : Z) (keys : list KEY) : M Z :=
  match keys with
  | [] => ret count
  | key :: rest =>
      let* mapIt := map_find NoFault key in
      match mapIt with
      | None => eraseBulk_from count rest
      | Some e => evictItem e >> eraseBulk_from (int_add count 1) rest
      end
  end.

Definition eraseBulk (keys : list KEY) : M Z := eraseBulk_from 0%Z keys.

(** The four overloads taking a [VALUE]: [moveKey] says the key is a
    [MovableRef<KEY>], [moveValue] that the value is a [MovableRef<VALUE>]. *)
Definition insert (moveKey moveValue : bool) (ft : fault)
    (key : KEY) (value : VALUE) : M unit :=
  let* valuePtr := populateValuePtrType ft value in
  insertValuePtrMoveImp ft key moveKey valuePtr true >>
  ret tt.

(** The two overloads taking a [ValuePtrType]. *)
Definition insertPtr (moveKey : bool) (ft : fault)
    (key : KEY) (valuePtr : ValuePtrType) : M unit :=
  insertValuePtrMoveImp ft key moveKey valuePtr false >>
  ret tt.

(** The loop of [insertBulk]; [count] is the [int] counter, to which the
    [bool] returned by [insertValuePtrMoveImp] is added; [fts] gives the
    fault met by each element, [NoFault] once it is exhausted.  [move] is
    [true] for the overload taking [MovableRef<bsl::vector<KVType>>]. *)
Fixpoint insertBulk_from (move : bool) (count : Z) (fts : list fault)
    (data : list KVType) : M Z :=
  match data with
  | [] => ret count
  | (key, valuePtr) :: rest =>
      let* b := insertValuePtrMoveImp (default NoFault (head fts)) key move valuePtr move in
      insertBulk_from move (int_add count (if b : bool then 1 else 0)) (tail fts) rest
  end.

Definition insertBulk (move : bool) (fts : list fault) (data : list KVType) : M Z :=
  insertBulk_from move 0%Z fts data.

Definition popFront : M Z :=
  let* s := get in
  if 0 <? size (d_map s) then
    let* mapIt := find_front in
    evictItem mapIt >>
    ret 0%Z
  else ret 1%Z.

Definition setPostEvictionCallback (postEvictionCallback : PostEvictionCallback) : M unit :=
  modify (set_callback postEvictionCallback).

(** The lock mode [tryGetValue] chooses before it locks. *)
Definition writeLock (s : Cache) (modifyEvictionQueue : bool) : bool :=
  bool_decide (d_evictionPolicy s = e_LRU) && modifyEvictionQueue.

(** [value] is the content of the caller's [*value] before the call; the
    result carries the return code and the content afterwards. *)
Definition tryGetValue (value : ValuePtrType) (key : KEY)
    (modifyEvictionQueue : bool) : M (Z * ValuePtrType) :=
  let* s := get in
  let* mapIt := map_find NoFault key in
  match mapIt with
  | None => ret (1%Z, value)
  | Some (_, (stored, queueIt)) =>
      (if writeLock s modifyEvictionQueue then
         let* s' := get in
         match queue_last (d_queue s') with
         | None => undef
         | Some l => if decide (l ≠ queueIt) then queue_splice_back queueIt else ret tt
         end
       else ret tt) >>
      ret (0%Z, stored)
  end.

(** ** Accessors *)

Definition size_ : M nat := let* s := get in ret (size (d_map s)).

Definition evictionPolicy : M Enum := let* s := get in ret (d_evictionPolicy s).

Definition highWatermark : M nat := let* s := get in ret (d_highWatermark s).

Definition lowWatermark : M nat := let* s := get in ret (d_lowWatermark s).

(** The loop of [visit]: the result lists the calls made to the visitor.
    Dereferencing a null handle, or a key of the queue missing from the map,
    is undefined. *)
Fixpoint visit_from (visitor : KEY → VALUE → bool) (q : QueueType)
    (m : gmap KEY MapValue) : outcome (list (KEY * VALUE)) :=
  match q with
  | [] => Ret []
  | (_, key) :: rest =>
      match m !! key with
      | Some (Some v, _) =>
          if visitor key v then
            match visit_from visitor rest m with
            | Ret l => Ret ((key, v) :: l)
            | o => o
            end
          else Ret [(key, v)]
      | _ => Undef
      end
  end.

Definition visit (visitor : KEY → VALUE → bool) : M (list (KEY * VALUE)) := λ s,
  (s, visit_from visitor (d_queue s) (d_map s)).

(** ** Creators *)

(** [Cache(evictionPolicy, lowWatermark, highWatermark, ...)]; the behaviour
    is undefined unless [1 <= lowWatermark <= highWatermark]. *)
Definition new_cache (evictionPolicy : Enum) (lowWatermark highWatermark : nat) : Cache :=
  mkCache ∅ [] evictionPolicy lowWatermark highWatermark None 0 [].

(** [Cache(basicAllocator)]: LRU, both watermarks at
    [bsl::numeric_limits<bsl::size_t>::max()], here [size_max]. *)
Definition new_cache_unbounded (size_max : nat) : Cache :=
  new_cache e_LRU size_max size_max.

(** ** The public interface as data *)

Inductive call : Type :=
| CallClear
| CallErase (key : KEY)
| CallEraseBulk (keys : list KEY)
| CallInsert (moveKey moveValue : bool) (ft : fault) (key : KEY) (value : VALUE)
| CallInsertPtr (moveKey : bool) (ft : fault) (key : KEY) (valuePtr : ValuePtrType)
| CallInsertBulk (move : bool) (fts : list fault) (data : list KVType)
| CallPopFront
| CallSetPostEvictionCallback (postEvictionCallback : PostEvictionCallback)
| CallTryGetValue (value : ValuePtrType) (key : KEY) (modifyEvictionQueue : bool)
| CallSize
| CallVisit (visitor : KEY → VALUE → bool).

(** The state a call leaves behind and how it ended (its result dropped). *)
Definition perform (c : call) : M unit :=
  match c with
  | CallClear => clear
  | CallErase key => erase key >> ret tt
  | CallEraseBulk keys => eraseBulk keys >> ret tt
  | CallInsert moveKey moveValue ft key value => insert moveKey moveValue ft key value
  | CallInsertPtr moveKey ft key valuePtr => insertPtr moveKey ft key valuePtr
  | CallInsertBulk move fts data => insertBulk move fts data >> ret tt
  | CallPopFront => popFront >> ret tt
  | CallSetPostEvictionCallback cb => setPostEvictionCallback cb
  | CallTryGetValue value key modifyEvictionQueue =>
      tryGetValue value key modifyEvictionQueue >> ret tt
  | CallSize => size_ >> ret tt
  | CallVisit visitor => visit visitor >> ret tt
  end.

(** The key and handle a single insert without fault hands to the cache. *)
Definition inserts (c : call) : option (KEY * ValuePtrType) :=
  match c with
  | CallInsert _ _ NoFault key value => Some (key, Some value)
  | CallInsertPtr _ NoFault key valuePtr => Some (key, valuePtr)
  | _ => None
  end.

(** No exception is injected into the call. *)
Definition faultless (c : call) : Prop :=
  match c with
  | CallInsert _ _ ft _ _ => ft = NoFault
  | CallInsertPtr _ ft _ _ => ft = NoFault
  | CallInsertBulk _ fts _ => Forall (λ ft, ft = NoFault) fts
  | _ => True
  end.

(** The cache after a sequence of calls, whatever way each one ended. *)
Definition perform_all (cs : list call) (s : Cache) : Cache :=
  foldl (λ s c, (perform c s).1) s cs.

(** ** What the specification talks about *)

(** The keys of the eviction queue, front first. *)
Definition queue_keys (s : Cache) : list KEY := (d_queue s).*2.

(** The handle the map stores for [k] (null when [k] is absent). *)
Definition handle_of (m : gmap KEY MapValue) (k : KEY) : ValuePtrType :=
  match m !! k with
  | Some (v, _) => v
  | None => None
  end.

(** The handles of the entries whose nodes are listed in [q]. *)
Definition handles (m : gmap KEY MapValue) (q : QueueType) : list ValuePtrType :=
  (λ n, handle_of m n.2) <$> q.

(** Index and queue are coupled: same size, every map entry's iterator
    designates a node holding the entry's key, every node's key is in the
    map. *)
Record coupled (s : Cache) : Prop := mkCoupled {
  coupled_size : size (d_map s) = length (d_queue s);
  coupled_map : ∀ k v c, d_map s !! k = Some (v, c) →
                         queue_holds c (d_queue s) = Some k;
  coupled_queue : ∀ c k, (c, k) ∈ d_queue s → is_Some (d_map s !! k)
}.

(** The invariant the member functions maintain: the nodes of the queue have
    distinct addresses, all handed out already, and map entries and queue
    nodes correspond one to one. *)
Record wf (s : Cache) : Prop := mkWf {
  wf_nodup : NoDup (d_queue s).*1;
  wf_fresh : ∀ c, c ∈ (d_queue s).*1 → c < g_fresh s;
  wf_map : ∀ k v c, d_map s !! k = Some (v, c) → (c, k) ∈ d_queue s;
  wf_queue : ∀ c k, (c, k) ∈ d_queue s → ∃ v, d_map s !! k = Some (v, c)
}.

(** The watermarks are as the constructor requires and the size is within
    the high watermark. *)
Definition bounded (s : Cache) : Prop :=
  1 ≤ d_lowWatermark s ≤ d_highWatermark s ∧
  size (d_map s) ≤ d_highWatermark s.

(** What the constructor fixes for the lifetime of the object. *)
Definition config (s : Cache) : Enum * nat * nat :=
  (d_evictionPolicy s, d_lowWatermark s, d_highWatermark s).

(** The invariant of a cache configured as [cfg], with the size bound when
    [B] holds. *)
Definition inv (B : Prop) (cfg : Enum * nat * nat) (s : Cache) : Prop :=
  wf s ∧ config s = cfg ∧ (B → bounded s).

(** [m] keeps [inv B] however it ends, and does not run into undefined
    behaviour. *)
Definition keeps {A} (B : Prop) (m : M A) : Prop :=
  ∀ cfg s, inv B cfg s → inv B cfg (m s).1 ∧ (m s).2 ≠ Undef.

(** No entry holds a null handle ([visit] dereferences every handle). *)
Definition no_null (s : Cache) : Prop :=
  ∀ k it, d_map s !! k ≠ Some (None, it).

(** The installed callback never throws. *)
Definition nothrow (s : Cache) : Prop :=
  ∀ cb, d_postEvictionCallback s = Some cb → ∀ h v, cb h v = false.

(** The cache once the entry with key [k] and node [c] is detached from
    both containers. *)
Definition evicted (k : KEY) (c : node) (s : Cache) : Cache :=
  set_map (delete k (d_map s)) (set_queue (queue_without c (d_queue s)) s).

(** The trace once the callback, if set, has been handed [value]. *)
Definition called (value : ValuePtrType) (s : Cache) : Cache :=
  match d_postEvictionCallback s with
  | Some _ => set_calls (g_calls s ++ [value]) s
  | None => s
  end.

(** The cache once its [n] front entries are evicted, each handed to the
    callback in queue order. *)
Definition evict_front (n : nat) (s : Cache) : Cache :=
  let victims := take n (d_queue s) in
  set_calls (g_calls s ++ match d_postEvictionCallback s with
                          | Some _ => handles (d_map s) victims
                          | None => []
                          end)
    (set_map (foldr delete (d_map s) victims.*2)
       (set_queue (drop n (d_queue s)) s)).

(** How many entries an eviction burst started on [s] removes when no
    callback throws: none below the high watermark, otherwise as many as
    bring the size to [d_lowWatermark s - 1] (to 0 for a low watermark
    of 0). *)
Definition burst (s : Cache) : nat :=
  if size (d_map s) <? d_highWatermark s then 0
  else size (d_map s) - (d_lowWatermark s - 1).

(** Whether the callback throws on victim number [j] (from 0) of a burst
    started on [s]: it is handed the handle of the [j]-th entry of the queue
    once it has been handed those of the [j] entries in front of it. *)
Definition throws_on (s : Cache) (j : nat) : bool :=
  match d_postEvictionCallback s, d_queue s !! j with
  | Some cb, Some (_, k) =>
      cb (g_calls s ++ handles (d_map s) (take j (d_queue s)))
         (handle_of (d_map s) k)
  | _, _ => false
  end.

(** The cache once the handle of the present key [key], whose node is [c],
    is overwritten and the node relinked at the back. *)
Definition replaced (key : KEY) (valuePtr : ValuePtrType) (c : node) (s : Cache) : Cache :=
  set_queue (queue_without c (d_queue s) ++ [(c, key)])
    (set_map (<[key := (valuePtr, c)]> (d_map s)) s).

(** The cache once the absent key [key] is appended at a fresh node and
    entered in the map. *)
Definition added (key : KEY) (valuePtr : ValuePtrType) (s : Cache) : Cache :=
  set_map (<[key := (valuePtr, g_fresh s)]> (d_map s))
    (set_fresh (S (g_fresh s)) (set_queue (d_queue s ++ [(g_fresh s, key)]) s)).

(** The cache once the node [c], which holds [key], is relinked at the
    back of the queue. *)
Definition spliced (c : node) (key : KEY) (s : Cache) : Cache :=
  set_queue (queue_without c (d_queue s) ++ [(c, key)]) s.

(** What [insertValuePtrMoveImp] does once the eviction burst is over. *)
Definition insert_entry (ft : fault) (key : KEY) (valuePtr : ValuePtrType)
    (s : Cache) : Cache * outcome bool :=
  if decide (ft = ThrowFind) then (s, Throw)
  else match d_map s !! key with
       | Some (_, c) => (replaced key valuePtr c s, Ret false)
       | None =>
           if decide (ft = ThrowPushBack) then (s, Throw)
           else if decide (ft = ThrowEmplace) then (set_fresh (S (g_fresh s)) s, Throw)
           else (added key valuePtr s, Ret true)
       end.

(** ** Facts about the queue *)

Lemma queue_holds_elem (c : node) (k : KEY) (q : QueueType) :
  queue_holds c q = Some k → (c, k) ∈ q.
Proof.
  induction q as [|[c' k'] q IH]; simpl; [done|].
  case_decide; intros Hq.
  - simplify_eq. left.
  - right. auto.
Qed.

Lemma queue_holds_None (c : node) (q : QueueType) :
  queue_holds c q = None ↔ c ∉ q.*1.
Proof.
  induction q as [|[c' k'] q IH]; simpl.
  - split; [intros _; apply not_elem_of_nil | done].
  - case_decide; rewrite not_elem_of_cons; split; try done; try tauto.
    + intros [? _]. congruence.
    + intros ?. split; [congruence | tauto].
Qed.

Lemma queue_holds_NoDup (c : node) (k : KEY) (q : QueueType) :
  NoDup q.*1 → (c, k) ∈ q → queue_holds c q = Some k.
Proof.
  induction q as [|[c' k'] q IH]; simpl; intros Hnd Hin.
  - by apply elem_of_nil in Hin.
  - apply NoDup_cons in Hnd as [Hc' Hnd].
    apply elem_of_cons in Hin as [Heq | Hin].
    + simplify_eq. by rewrite decide_True.
    + rewrite decide_False; [auto|].
      intros ->. apply Hc'. apply list_elem_of_fmap. by exists (c, k).
Qed.

Lemma elem_of_queue_without (c c' : node) (k : KEY) (q : QueueType) :
  (c', k) ∈ queue_without c q ↔ c' ≠ c ∧ (c', k) ∈ q.
Proof. unfold queue_without. by rewrite list_elem_of_filter. Qed.

Lemma queue_without_sublist (c : node) (q : QueueType) :
  sublist (queue_without c q) q.
Proof. apply sublist_filter. Qed.

Lemma queue_without_NoDup (c : node) (q : QueueType) :
  NoDup q.*1 → NoDup (queue_without c q).*1.
Proof.
  intros Hnd. apply (sublist_NoDup _ _ Hnd).
  apply fmap_sublist, queue_without_sublist.
Qed.

Lemma queue_without_fresh (c : node) (q : QueueType) :
  c ∉ q.*1 → queue_without c q = q.
Proof.
  intros Hc. unfold queue_without.
  induction q as [|[c' k'] q IH]; [done|].
  simpl in Hc. apply not_elem_of_cons in Hc as [Hne Hc].
  rewrite filter_cons_True; [|simpl; congruence].
  by rewrite IH.
Qed.

Lemma queue_without_head (c : node) (k : KEY) (q : QueueType) :
  NoDup ((c, k) :: q).*1 → queue_without c ((c, k) :: q) = q.
Proof.
  simpl. intros [Hc _]%NoDup_cons. unfold queue_without.
  rewrite filter_cons_False; [|simpl; tauto].
  by apply queue_without_fresh.
Qed.

Lemma queue_without_nodes (c : node) (q : QueueType) :
  c ∉ (queue_without c q).*1.
Proof.
  intros ([c' k] & -> & Hin)%list_elem_of_fmap.
  apply elem_of_queue_without in Hin. simpl in Hin. tauto.
Qed.

Lemma queue_without_length (c : node) (k : KEY) (q : QueueType) :
  NoDup q.*1 → (c, k) ∈ q → S (length (queue_without c q)) = length q.
Proof.
  induction q as [|[c' k'] q IH]; simpl; intros Hnd Hin.
  - by apply elem_of_nil in Hin.
  - apply elem_of_cons in Hin as [Heq | Hin].
    + simplify_eq. by rewrite queue_without_head.
    + pose proof Hnd as [Hc' Hnd']%NoDup_cons.
      unfold queue_without. rewrite filter_cons_True.
      * simpl. f_equal. by apply IH.
      * simpl. intros ->. apply Hc'. apply list_elem_of_fmap. by exists (c, k).
Qed.

(** ** Consequences of the invariant *)

Lemma wf_keys_NoDup (s : Cache) : wf s → NoDup (queue_keys s).
Proof.
  intros Hwf. unfold queue_keys.
  apply NoDup_fmap_2_strong.
  - intros [c1 k1] [c2 k2] H1 H2 Heq. simpl in Heq. subst k2.
    apply (wf_queue _ Hwf) in H1 as [v1 H1].
    apply (wf_queue _ Hwf) in H2 as [v2 H2].
    congruence.
  - eapply NoDup_fmap_1, wf_nodup, Hwf.
Qed.

Lemma wf_size (s : Cache) : wf s → size (d_map s) = length (d_queue s).
Proof.
  intros Hwf.
  rewrite <- (size_dom (D := gset KEY) (d_map s)).
  assert (dom (d_map s) = list_to_set (queue_keys s)) as ->.
  { apply set_eq. intros k.
    rewrite elem_of_dom, elem_of_list_to_set. unfold queue_keys.
    rewrite list_elem_of_fmap. split.
    - intros [[v c] Hk]. exists (c, k). split; [done|].
      by apply (wf_map _ Hwf) in Hk.
    - intros ([c k'] & -> & Hin). simpl.
      apply (wf_queue _ Hwf) in Hin as [v Hv]. eauto. }
  rewrite size_list_to_set by by apply wf_keys_NoDup.
  unfold queue_keys. by rewrite length_fmap.
Qed.

Lemma wf_coupled (s : Cache) : wf s → coupled s.
Proof.
  intros Hwf. split.
  - by apply wf_size.
  - intros k v c Hk. apply queue_holds_NoDup; [apply Hwf|].
    by apply (wf_map _ Hwf) in Hk.
  - intros c k Hin. apply (wf_queue _ Hwf) in Hin as [v Hv]. eauto.
Qed.

Lemma wf_new_cache (p : Enum) (lo hi : nat) : wf (new_cache p lo hi).
Proof.
  split; simpl.
  - constructor.
  - intros c Hc. by apply elem_of_nil in Hc.
  - intros k v c Hk. by rewrite lookup_empty in Hk.
  - intros c k Hin. by apply elem_of_nil in Hin.
Qed.

Lemma wf_front (s : Cache) (c : node) (k : KEY) (q : QueueType) :
  wf s → d_queue s = (c, k) :: q → ∃ v, d_map s !! k = Some (v, c).
Proof.
  intros Hwf Hq. apply (wf_queue _ Hwf). rewrite Hq. left.
Qed.

Lemma wf_nonempty (s : Cache) :
  wf s → 0 < size (d_map s) → ∃ c k q, d_queue s = (c, k) :: q.
Proof.
  intros Hwf Hsz. rewrite (wf_size _ Hwf) in Hsz.
  destruct (d_queue s) as [|[c k] q]; [simpl in Hsz; lia | eauto].
Qed.

Lemma wf_evicted (s : Cache) (k : KEY) (v : ValuePtrType) (c : node) :
  wf s → d_map s !! k = Some (v, c) → wf (evicted k c s).
Proof.
  intros Hwf Hk. split; simpl.
  - apply queue_without_NoDup, Hwf.
  - intros c' ([c'' k'] & -> & Hin)%list_elem_of_fmap.
    apply elem_of_queue_without in Hin as [_ Hin]. simpl.
    apply (wf_fresh _ Hwf), list_elem_of_fmap. by exists (c'', k').
  - intros k' v' c' Hk'.
    apply lookup_delete_Some in Hk' as [Hne Hk'].
    apply elem_of_queue_without. split; [|by apply (wf_map _ Hwf) in Hk'].
    intros ->. apply Hne.
    apply (wf_map _ Hwf) in Hk, Hk'.
    pose proof (queue_holds_NoDup _ _ _ (wf_nodup _ Hwf) Hk).
    pose proof (queue_holds_NoDup _ _ _ (wf_nodup _ Hwf) Hk').
    congruence.
  - intros c' k' [Hne Hin]%elem_of_queue_without.
    apply (wf_queue _ Hwf) in Hin as [v' Hv']. exists v'.
    rewrite lookup_delete_ne; [done|]. intros ->. congruence.
Qed.

Lemma wf_set_calls (l : list ValuePtrType) (s : Cache) : wf s → wf (set_calls l s).
Proof. intros [H1 H2 H3 H4]. by split. Qed.

Lemma wf_set_callback (cb : PostEvictionCallback) (s : Cache) :
  wf s → wf (set_callback cb s).
Proof. intros [H1 H2 H3 H4]. by split. Qed.

Lemma wf_called (v : ValuePtrType) (s : Cache) : wf s → wf (called v s).
Proof.
  intros Hwf. unfold called.
  destruct (d_postEvictionCallback s); [by apply wf_set_calls | done].
Qed.

Lemma size_evicted (s : Cache) (k : KEY) (v : ValuePtrType) (c : node) :
  d_map s !! k = Some (v, c) → S (size (d_map (evicted k c s))) = size (d_map s).
Proof.
  intros Hk. simpl. rewrite map_size_delete, Hk.
  assert (size (d_map s) ≠ 0); [|lia].
  intros Hz. apply map_size_empty_inv in Hz. rewrite Hz in Hk.
  by rewrite lookup_empty in Hk.
Qed.

(** ** Running the monad *)

Lemma bind_Ret {A B} (m : M A) (f : A → M B) (s s' : Cache) (a : A) :
  m s = (s', Ret a) → bind m f s = f a s'.
Proof. unfold bind. by intros ->. Qed.

Lemma bind_Throw {A B} (m : M A) (f : A → M B) (s s' : Cache) :
  m s = (s', Throw) → bind m f s = (s', Throw).
Proof. unfold bind. by intros ->. Qed.

Lemma bind_Undef {A B} (m : M A) (f : A → M B) (s s' : Cache) :
  m s = (s', Undef) → bind m f s = (s', Undef).
Proof. unfold bind. by intros ->. Qed.

(** ** evictItem *)

Lemma invoke_callback_state (v : ValuePtrType) (s : Cache) :
  (invoke_callback v s).1 = called v s.
Proof.
  unfold invoke_callback, called.
  destruct (d_postEvictionCallback s) as [cb|]; [|done].
  by destruct (cb (g_calls s) v).
Qed.

Lemma invoke_callback_outcome (v : ValuePtrType) (s : Cache) :
  invoke_callback v s = (called v s, Ret tt) ∨
  invoke_callback v s = (called v s, Throw) ∧
    ∃ cb, d_postEvictionCallback s = Some cb ∧ cb (g_calls s) v = true.
Proof.
  unfold invoke_callback, called.
  destruct (d_postEvictionCallback s) as [cb|]; [|by left].
  destruct (cb (g_calls s) v) eqn:Hcb; [right | by left].
  split; [done|]. by exists cb.
Qed.

Lemma invoke_callback_nothrow (v : ValuePtrType) (s : Cache) :
  nothrow s → invoke_callback v s = (called v s, Ret tt).
Proof.
  intros Hnt. destruct (invoke_callback_outcome v s) as [?|[_ (cb & Hcb & Ht)]]; [done|].
  by rewrite (Hnt cb Hcb) in Ht.
Qed.

Lemma invoke_callback_throws (v : ValuePtrType) (s : Cache) cb :
  d_postEvictionCallback s = Some cb → cb (g_calls s) v = true →
  invoke_callback v s = (set_calls (g_calls s ++ [v]) s, Throw).
Proof. unfold invoke_callback. by intros -> ->. Qed.

Lemma evictItem_run (k : KEY) (v : ValuePtrType) (c : node) (s : Cache) :
  wf s → d_map s !! k = Some (v, c) →
  evictItem (k, (v, c)) s = invoke_callback v (evicted k c s).
Proof.
  intros Hwf Hk. unfold evictItem; simpl.
  pose proof (coupled_map _ (wf_coupled _ Hwf) _ _ _ Hk) as Hq.
  rewrite (bind_Ret _ _ s (set_queue (queue_without c (d_queue s)) s) tt).
  2:{ unfold queue_erase. by rewrite Hq. }
  by rewrite (bind_Ret _ _ _ (evicted k c s) tt).
Qed.

Lemma find_front_run (s : Cache) (c : node) (k : KEY) (q : QueueType) :
  wf s → d_queue s = (c, k) :: q →
  ∃ v, d_map s !! k = Some (v, c) ∧ find_front s = (s, Ret (k, (v, c))).
Proof.
  intros Hwf Hq. destruct (wf_front _ _ _ _ Hwf Hq) as [v Hv].
  exists v. split; [done|]. unfold find_front.
  rewrite (bind_Ret _ _ s s k); [|unfold queue_front; by rewrite Hq].
  rewrite (bind_Ret _ _ s s (Some (k, (v, c)))); [done|].
  unfold map_find. simpl. by rewrite Hv.
Qed.

(** ** The eviction burst *)

Lemma foldr_delete_commute (k : KEY) (m : gmap KEY MapValue) (l : list KEY) :
  foldr delete (delete k m) l = delete k (foldr delete m l).
Proof.
  induction l as [|k' l IH]; simpl; [done|].
  by rewrite IH, delete_delete.
Qed.

Lemma handles_delete (k : KEY) (m : gmap KEY MapValue) (q : QueueType) :
  k ∉ q.*2 → handles (delete k m) q = handles m q.
Proof.
  intros Hk. unfold handles. apply list_fmap_ext.
  intros i [c k'] Hi. simpl. unfold handle_of.
  rewrite lookup_delete_ne; [done|].
  intros ->. apply Hk. apply list_elem_of_fmap. exists (c, k').
  split; [done|]. by eapply list_elem_of_lookup_2.
Qed.

Lemma evict_front_0 (s : Cache) : evict_front 0 s = s.
Proof.
  unfold evict_front. simpl. rewrite drop_0.
  destruct s as [m q p lo hi [cb|] f l]; unfold set_calls, set_map, set_queue;
    simpl; by rewrite app_nil_r.
Qed.

Lemma evict_front_nil (n : nat) (s : Cache) :
  d_queue s = [] → evict_front n s = s.
Proof.
  intros Hq. unfold evict_front. rewrite Hq, take_nil, drop_nil. simpl.
  destruct s as [m q p lo hi [cb|] f l]; unfold set_calls, set_map, set_queue;
    simpl in *; subst q; by rewrite app_nil_r.
Qed.

Lemma evict_front_S (n : nat) (s : Cache) (c : node) (k : KEY) (q : QueueType)
    (v : ValuePtrType) :
  wf s → d_queue s = (c, k) :: q → d_map s !! k = Some (v, c) →
  evict_front (S n) s = evict_front n (called v (evicted k c s)).
Proof.
  intros Hwf Hq Hk.
  pose proof (wf_nodup _ Hwf) as Hnd. pose proof (wf_keys_NoDup _ Hwf) as Hkd.
  unfold queue_keys in Hkd. rewrite Hq in Hnd, Hkd.
  assert (queue_without c (d_queue s) = q) as Hw.
  { rewrite Hq. by apply queue_without_head. }
  assert (handles (delete k (d_map s)) (take n q) = handles (d_map s) (take n q)) as Hh.
  { apply handles_delete. simpl in Hkd. apply NoDup_cons in Hkd as [Hkq _].
    intros Hin. apply Hkq. rewrite fmap_take in Hin.
    eapply elem_of_sublist; [exact Hin | apply sublist_take]. }
  unfold evict_front, called, evicted.
  destruct s as [m q0 p lo hi [cb|] f l]; simpl in *; subst q0;
    unfold set_calls, set_map, set_queue; simpl; rewrite Hw;
    rewrite foldr_delete_commute; f_equal.
  rewrite Hh. unfold handle_of at 1. rewrite Hk. by rewrite <- app_assoc.
Qed.

Lemma evict_front_frame (n : nat) (s : Cache) :
  d_evictionPolicy (evict_front n s) = d_evictionPolicy s ∧
  d_lowWatermark (evict_front n s) = d_lowWatermark s ∧
  d_highWatermark (evict_front n s) = d_highWatermark s ∧
  d_postEvictionCallback (evict_front n s) = d_postEvictionCallback s ∧
  g_fresh (evict_front n s) = g_fresh s.
Proof. done. Qed.

Lemma called_frame (v : ValuePtrType) (s : Cache) :
  d_map (called v s) = d_map s ∧ d_queue (called v s) = d_queue s ∧
  d_evictionPolicy (called v s) = d_evictionPolicy s ∧
  d_lowWatermark (called v s) = d_lowWatermark s ∧
  d_highWatermark (called v s) = d_highWatermark s ∧
  d_postEvictionCallback (called v s) = d_postEvictionCallback s ∧
  g_fresh (called v s) = g_fresh s.
Proof.
  unfold called. destruct (d_postEvictionCallback s) eqn:Hcb; simpl; by rewrite ?Hcb.
Qed.

Lemma nothrow_called (v : ValuePtrType) (k : KEY) (c : node) (s : Cache) :
  nothrow s → nothrow (called v (evicted k c s)).
Proof.
  unfold nothrow. intros Hnt cb.
  destruct (called_frame v (evicted k c s)) as (_ & _ & _ & _ & _ & -> & _).
  apply Hnt.
Qed.

Lemma wf_evict_front (n : nat) (s : Cache) : wf s → wf (evict_front n s).
Proof.
  revert s. induction n as [|n IH]; intros s Hwf.
  - by rewrite evict_front_0.
  - destruct (d_queue s) as [|[c k] q] eqn:Hq.
    + by rewrite evict_front_nil.
    + destruct (wf_front _ _ _ _ Hwf Hq) as [v Hv].
      rewrite (evict_front_S _ _ _ _ _ _ Hwf Hq Hv).
      apply IH, wf_called. by eapply wf_evicted.
Qed.

Lemma size_evict_front (n : nat) (s : Cache) :
  wf s → size (d_map (evict_front n s)) = size (d_map s) - n.
Proof.
  revert s. induction n as [|n IH]; intros s Hwf.
  - rewrite evict_front_0. lia.
  - destruct (d_queue s) as [|[c k] q] eqn:Hq.
    + pose proof (wf_size _ Hwf) as Hsz. rewrite Hq in Hsz.
      rewrite evict_front_nil by done. simpl in *. lia.
    + destruct (wf_front _ _ _ _ Hwf Hq) as [v Hv].
      rewrite (evict_front_S _ _ _ _ _ _ Hwf Hq Hv).
      rewrite IH by (apply wf_called; by eapply wf_evicted).
      destruct (called_frame v (evicted k c s)) as (-> & _).
      pose proof (size_evicted _ _ _ _ Hv). lia.
Qed.

Lemma evict_loop_spec (fuel : nat) (s : Cache) :
  wf s → size (d_map s) ≤ fuel →
  ∃ n o, evict_loop fuel s = (evict_front n s, o) ∧
    match o with
    | Ret _ => n = size (d_map s) - (d_lowWatermark s - 1)
    | Throw => 0 < n ≤ size (d_map s) - (d_lowWatermark s - 1) ∧ ¬ nothrow s
    | Undef => False
    end.
Proof.
  revert s. induction fuel as [|fuel IH]; intros s Hwf Hsz.
  - exists 0, (Ret tt). simpl. rewrite evict_front_0. split; [done|]. lia.
  - cbn [evict_loop]. rewrite (bind_Ret _ _ s s s) by done.
    destruct (_ && _) eqn:Hcond.
    + apply andb_true_iff in Hcond as [Hlo%Nat.leb_le Hpos%Nat.ltb_lt].
      destruct (wf_nonempty _ Hwf Hpos) as (c & k & q & Hq).
      destruct (find_front_run _ _ _ _ Hwf Hq) as (v & Hv & Hff).
      rewrite (bind_Ret _ _ _ _ _ Hff).
      pose proof (wf_called v _ (wf_evicted _ _ _ _ Hwf Hv)) as Hwf1.
      pose proof (size_evicted _ _ _ _ Hv) as Hsz1.
      destruct (called_frame v (evicted k c s)) as (Hm1 & _ & _ & Hl1 & _).
      unfold bind. rewrite evictItem_run by done.
      destruct (invoke_callback_outcome v (evicted k c s)) as [Hr|[Ht Hcb]].
      * rewrite Hr.
        destruct (IH _ Hwf1) as (n & o & Hrun & Ho); [rewrite Hm1; lia|].
        exists (S n), o. rewrite Hrun. split.
        { f_equal. symmetry. by eapply evict_front_S. }
        rewrite Hm1, Hl1 in Ho. simpl in Ho, Hsz1 |- *.
        destruct o as [[]| |]; [lia| |done].
        destruct Ho as [Hn Hnt]. split; [lia|].
        intros Hnt'. apply Hnt. by apply nothrow_called.
      * rewrite Ht. exists 1, Throw. split.
        { f_equal. rewrite (evict_front_S _ _ _ _ _ _ Hwf Hq Hv).
          by rewrite evict_front_0. }
        split; [lia|]. destruct Hcb as (cb & Hcb & Hthrows).
        intros Hnt. by rewrite (Hnt cb Hcb) in Hthrows.
    + exists 0, (Ret tt). rewrite evict_front_0. split; [done|].
      apply andb_false_iff in Hcond as [Hlo%Nat.leb_gt | Hpos%Nat.ltb_ge]; lia.
Qed.

(** More fuel than the size of the map changes nothing. *)
Lemma evict_loop_fuel (fuel : nat) (s : Cache) :
  wf s → size (d_map s) ≤ fuel →
  evict_loop fuel s = evict_loop (size (d_map s)) s.
Proof.
  revert s. induction fuel as [|fuel IH]; intros s Hwf Hsz.
  - by replace (size (d_map s)) with 0 by lia.
  - destruct (decide (size (d_map s) = S fuel)) as [->|Hne]; [done|].
    destruct (size (d_map s)) as [|m] eqn:Hm.
    { cbn [evict_loop]. rewrite (bind_Ret _ _ s s s) by done.
      by rewrite Hm, andb_false_r. }
    cbn [evict_loop]. rewrite !(bind_Ret _ _ s s s) by done.
    destruct (_ && _) eqn:Hcond; [|done].
    destruct (wf_nonempty s Hwf) as (c & k & q & Hq); [lia|].
    destruct (find_front_run _ _ _ _ Hwf Hq) as (v & Hv & Hff).
    rewrite !(bind_Ret _ _ _ _ _ Hff).
    pose proof (wf_called v _ (wf_evicted _ _ _ _ Hwf Hv)) as Hwf1.
    pose proof (size_evicted _ _ _ _ Hv) as Hsz1.
    destruct (called_frame v (evicted k c s)) as (Hm1 & _).
    unfold bind. rewrite evictItem_run by done.
    destruct (invoke_callback_outcome v (evicted k c s)) as [-> | [-> _]]; [|done].
    rewrite IH by (done || rewrite Hm1; lia).
    f_equal. rewrite Hm1. lia.
Qed.

(** The burst run by [enforceHighWatermark]: it never hits undefined
    behaviour on a well-formed cache, it evicts a prefix of the queue, and
    it evicts [burst s] entries unless a callback throws. *)
Lemma enforceHighWatermark_spec (s : Cache) :
  wf s →
  ∃ n o, enforceHighWatermark s = (evict_front n s, o) ∧
    match o with
    | Ret _ => n = burst s
    | Throw => 0 < n ≤ burst s ∧ ¬ nothrow s
    | Undef => False
    end.
Proof.
  intros Hwf. unfold enforceHighWatermark, burst.
  rewrite (bind_Ret _ _ s s s) by done.
  destruct (_ <? _) eqn:Hhi.
  - exists 0, (Ret tt). by rewrite evict_front_0.
  - by apply evict_loop_spec.
Qed.

Lemma enforceHighWatermark_nothrow (s : Cache) :
  wf s → nothrow s → enforceHighWatermark s = (evict_front (burst s) s, Ret tt).
Proof.
  intros Hwf Hnt.
  destruct (enforceHighWatermark_spec s Hwf) as (n & [[]| |] & Hrun & Ho).
  - by subst n.
  - by destruct Ho as [_ []].
  - done.
Qed.

Lemma burst_below_high (s : Cache) :
  size (d_map s) < d_highWatermark s → burst s = 0.
Proof. unfold burst. intros Hlt%Nat.ltb_lt. by rewrite Hlt. Qed.

(** After a burst that returned no further eviction is due. *)
Lemma burst_idempotent (s : Cache) :
  wf s → burst (evict_front (burst s) s) = 0.
Proof.
  intros Hwf. unfold burst at 1.
  rewrite (size_evict_front _ _ Hwf).
  destruct (evict_front_frame (burst s) s) as (_ & -> & -> & _).
  destruct (_ <? _) eqn:Hhi; [done|].
  apply Nat.ltb_ge in Hhi. unfold burst in *.
  destruct (size (d_map s) <? d_highWatermark s) eqn:Hhi'.
  - apply Nat.ltb_lt in Hhi'. lia.
  - lia.
Qed.

Lemma enforceHighWatermark_quiet (s : Cache) :
  wf s → burst s = 0 → enforceHighWatermark s = (s, Ret tt).
Proof.
  intros Hwf Hb.
  destruct (enforceHighWatermark_spec s Hwf) as (n & [[]| |] & Hrun & Ho).
  - rewrite Hrun. subst n. by rewrite Hb, evict_front_0.
  - lia.
  - done.
Qed.

(** ** The queue proctor *)

Lemma proctor_pop_unchanged (q : QueueType) :
  proctor_pop (queue_last q) (reverse q) = Ret (reverse q).
Proof.
  destruct q as [|[c k] q _] using rev_ind; [done|].
  unfold queue_last. rewrite last_snoc, reverse_snoc. simpl.
  by rewrite decide_True.
Qed.

Lemma proctor_pop_appended (q : QueueType) (c : node) (k : KEY) :
  c ∉ q.*1 →
  proctor_pop (queue_last q) (reverse (q ++ [(c, k)])) = Ret (reverse q).
Proof.
  intros Hc. rewrite reverse_snoc. simpl.
  rewrite decide_False; [apply proctor_pop_unchanged|].
  unfold queue_last. destruct (last q) as [[c' k']|] eqn:Hl; [|done].
  simpl. intros [= ->]. apply Hc. apply list_elem_of_fmap. exists (c, k').
  split; [done|]. apply last_Some in Hl as [q' ->].
  apply elem_of_app. right. left.
Qed.

Lemma set_queue_same (s : Cache) : set_queue (d_queue s) s = s.
Proof. by destruct s. Qed.

Lemma wf_fresh_notin (s : Cache) : wf s → g_fresh s ∉ (d_queue s).*1.
Proof. intros Hwf Hin. apply (wf_fresh _ Hwf) in Hin. lia. Qed.

(** ** insertValuePtrMoveImp *)

Lemma wf_replaced (key : KEY) (vp v0 : ValuePtrType) (c : node) (s : Cache) :
  wf s → d_map s !! key = Some (v0, c) → wf (replaced key vp c s).
Proof.
  intros Hwf Hk. pose proof (wf_map _ Hwf _ _ _ Hk) as Hin.
  split; simpl.
  - rewrite fmap_app. simpl. apply NoDup_app. split_and!.
    + apply queue_without_NoDup, Hwf.
    + intros c' Hc' ->%list_elem_of_singleton.
      by apply queue_without_nodes in Hc'.
    + apply NoDup_singleton.
  - intros c'. rewrite fmap_app, elem_of_app. simpl.
    intros [Hc'| ->%list_elem_of_singleton].
    + apply (wf_fresh _ Hwf).
      eapply elem_of_sublist; [exact Hc'|].
      apply fmap_sublist, queue_without_sublist.
    + apply (wf_fresh _ Hwf), list_elem_of_fmap. by exists (c, key).
  - intros k v c'. rewrite elem_of_app, list_elem_of_singleton.
    destruct (decide (k = key)) as [->|Hne].
    + rewrite lookup_insert_eq. intros [= <- <-]. by right.
    + rewrite lookup_insert_ne by done. intros Hk'. left.
      apply elem_of_queue_without. split; [|by apply (wf_map _ Hwf) in Hk'].
      intros ->. apply Hne.
      apply (wf_map _ Hwf) in Hk'.
      pose proof (queue_holds_NoDup _ _ _ (wf_nodup _ Hwf) Hin).
      pose proof (queue_holds_NoDup _ _ _ (wf_nodup _ Hwf) Hk').
      congruence.
  - intros c' k. rewrite elem_of_app, list_elem_of_singleton.
    intros [[Hne Hq]%elem_of_queue_without | [= -> ->]].
    + apply (wf_queue _ Hwf) in Hq as [v Hv]. exists v.
      rewrite lookup_insert_ne; [done|]. intros <-. congruence.
    + exists vp. by rewrite lookup_insert_eq.
Qed.

Lemma wf_added (key : KEY) (vp : ValuePtrType) (s : Cache) :
  wf s → d_map s !! key = None → wf (added key vp s).
Proof.
  intros Hwf Hk. pose proof (wf_fresh_notin _ Hwf) as Hf.
  split; simpl.
  - rewrite fmap_app. simpl. apply NoDup_app. split_and!.
    + apply Hwf.
    + by intros c' Hc' ->%list_elem_of_singleton.
    + apply NoDup_singleton.
  - intros c'. rewrite fmap_app, elem_of_app. simpl.
    intros [Hc'%(wf_fresh _ Hwf)| ->%list_elem_of_singleton]; lia.
  - intros k v c'. rewrite elem_of_app, list_elem_of_singleton.
    destruct (decide (k = key)) as [->|Hne].
    + rewrite lookup_insert_eq. intros [= <- <-]. by right.
    + rewrite lookup_insert_ne by done. intros Hk'. left.
      by apply (wf_map _ Hwf) in Hk'.
  - intros c' k. rewrite elem_of_app, list_elem_of_singleton.
    intros [Hq | [= -> ->]].
    + apply (wf_queue _ Hwf) in Hq as [v Hv]. exists v.
      rewrite lookup_insert_ne; [done|]. intros <-. congruence.
    + exists vp. by rewrite lookup_insert_eq.
Qed.

Lemma wf_set_fresh_S (s : Cache) : wf s → wf (set_fresh (S (g_fresh s)) s).
Proof.
  intros [H1 H2 H3 H4]. split; simpl; try done.
  intros c Hc%H2. lia.
Qed.

(** Past the burst, [insertValuePtrMoveImp] is [insert_entry]. *)
Lemma insertValuePtrMoveImp_run (ft : fault) (key : KEY) (moveKey : bool)
    (valuePtr : ValuePtrType) (moveValuePtr : bool) (s s1 : Cache) :
  wf s1 → enforceHighWatermark s = (s1, Ret tt) →
  insertValuePtrMoveImp ft key moveKey valuePtr moveValuePtr s =
  insert_entry ft key valuePtr s1.
Proof.
  intros Hwf Henf. unfold insertValuePtrMoveImp, insert_entry.
  rewrite (bind_Ret _ _ _ _ _ Henf).
  unfold bind at 1, map_find at 1.
  destruct (decide (ft = ThrowFind)) as [|Hff]; [done|]. simpl.
  destruct (d_map s1 !! key) as [[v0 c]|] eqn:Hk; simpl.
  - pose proof (coupled_map _ (wf_coupled _ Hwf) _ _ _ Hk) as Hq.
    unfold bind, modify, queue_splice_back, ret. simpl. by rewrite Hq.
  - unfold bind at 1, with_proctor, bind at 1, queue_push_back.
    destruct (decide (ft = ThrowPushBack)) as [|Hfp].
    { unfold proctor_destroy. rewrite proctor_pop_unchanged.
      by rewrite reverse_involutive, set_queue_same. }
    unfold map_emplace.
    destruct (decide (ft = ThrowEmplace)) as [|Hfe]; [|done].
    unfold proctor_destroy. simpl.
    rewrite proctor_pop_appended by by apply wf_fresh_notin.
    rewrite reverse_involutive. by destruct s1.
Qed.

Lemma insertValuePtrMoveImp_throw (ft : fault) (key : KEY) (moveKey : bool)
    (valuePtr : ValuePtrType) (moveValuePtr : bool) (s s1 : Cache) :
  enforceHighWatermark s = (s1, Throw) →
  insertValuePtrMoveImp ft key moveKey valuePtr moveValuePtr s = (s1, Throw).
Proof. intros Henf. unfold insertValuePtrMoveImp. by rewrite (bind_Throw _ _ _ _ Henf). Qed.

Lemma wf_insert_entry (ft : fault) (key : KEY) (vp : ValuePtrType) (s : Cache) :
  wf s → wf (insert_entry ft key vp s).1 ∧ (insert_entry ft key vp s).2 ≠ Undef.
Proof.
  intros Hwf. unfold insert_entry.
  destruct (decide (ft = ThrowFind)); [done|].
  destruct (d_map s !! key) as [[v0 c]|] eqn:Hk.
  - split; [by eapply wf_replaced | done].
  - destruct (decide (ft = ThrowPushBack)); [done|].
    destruct (decide (ft = ThrowEmplace)).
    + split; [by apply wf_set_fresh_S | done].
    + split; [by apply wf_added | done].
Qed.

(** ** Every call keeps the invariant *)

Lemma keeps_ret {A} (B : Prop) (a : A) : keeps B (ret a).
Proof. by intros cfg s Hs. Qed.

Lemma keeps_bind {A C} (B : Prop) (m : M A) (f : A → M C) :
  keeps B m → (∀ a, keeps B (f a)) → keeps B (bind m f).
Proof.
  intros Hm Hf cfg s Hs. destruct (Hm cfg s Hs) as [Hs' Ho]. unfold bind.
  destruct (m s) as [s' [a| |]]; simpl in *; [by apply Hf | done | done].
Qed.

Lemma inv_called (B : Prop) cfg (k : KEY) (v : ValuePtrType) (c : node) (s : Cache) :
  inv B cfg s → d_map s !! k = Some (v, c) → inv B cfg (called v (evicted k c s)).
Proof.
  intros (Hwf & Hcfg & Hb) Hk.
  destruct (called_frame v (evicted k c s)) as (Hm & _ & Hp & Hl & Hh & _).
  split_and!.
  - apply wf_called. by eapply wf_evicted.
  - unfold config. by rewrite Hp, Hl, Hh.
  - intros HB. destruct (Hb HB) as [Hw Hsz]. unfold bounded.
    rewrite Hm, Hl, Hh.
    pose proof (size_evicted _ _ _ _ Hk). simpl in *. split; [done | lia].
Qed.

Lemma inv_evictItem (B : Prop) cfg (k : KEY) (v : ValuePtrType) (c : node) (s : Cache) :
  inv B cfg s → d_map s !! k = Some (v, c) →
  inv B cfg (evictItem (k, (v, c)) s).1 ∧ (evictItem (k, (v, c)) s).2 ≠ Undef.
Proof.
  intros Hs Hk. rewrite evictItem_run by (done || apply Hs).
  destruct (invoke_callback_outcome v (evicted k c s)) as [-> | [-> _]]; simpl;
    (split; [by apply inv_called | done]).
Qed.

Lemma map_find_run (key : KEY) (s : Cache) :
  map_find NoFault key s = (s, Ret ((λ mv, (key, mv)) <$> d_map s !! key)).
Proof. done. Qed.

(** An entry found by [d_map.find] is evicted, then [f] runs. *)
Lemma keeps_find_evict {A} (B : Prop) (key : KEY) (f g : M A) :
  keeps B f → keeps B g →
  keeps B (let* mapIt := map_find NoFault key in
           match mapIt with
           | None => f
           | Some e => evictItem e >> g
           end).
Proof.
  intros Hf Hg cfg s Hs. rewrite (bind_Ret _ _ _ _ _ (map_find_run key s)).
  destruct (d_map s !! key) as [[v c]|] eqn:Hk; simpl; [|by apply Hf].
  destruct (inv_evictItem B _ _ _ _ _ Hs Hk) as [Hs' Ho]. unfold bind.
  destruct (evictItem _ s) as [s' [[]| |]]; simpl in *; [by apply Hg | done | done].
Qed.

Lemma keeps_find_front_evict {A} (B : Prop) cfg (g : M A) (s : Cache) :
  keeps B g → inv B cfg s → 0 < size (d_map s) →
  let r := (let* mapIt := find_front in evictItem mapIt >> g) s in
  inv B cfg r.1 ∧ r.2 ≠ Undef.
Proof.
  intros Hg Hs Hpos.
  destruct (wf_nonempty _ (proj1 Hs) Hpos) as (c & k & q & Hq).
  destruct (find_front_run _ _ _ _ (proj1 Hs) Hq) as (v & Hv & Hff).
  rewrite (bind_Ret _ _ _ _ _ Hff).
  destruct (inv_evictItem B _ _ _ _ _ Hs Hv) as [Hs' Ho]. unfold bind.
  destruct (evictItem _ s) as [s' [[]| |]]; simpl in *; [by apply Hg | done | done].
Qed.

Lemma keeps_enforceHighWatermark (B : Prop) : keeps B enforceHighWatermark.
Proof.
  intros cfg s (Hwf & Hcfg & Hb).
  destruct (enforceHighWatermark_spec s Hwf) as (n & o & -> & Ho). simpl.
  split; [|by destruct o]. split_and!; [by apply wf_evict_front | done |].
  intros HB. destruct (Hb HB) as [Hw Hsz]. unfold bounded.
  rewrite (size_evict_front _ _ Hwf).
  destruct (evict_front_frame n s) as (_ & -> & -> & _). split; [done | lia].
Qed.

Lemma insert_entry_frame (ft : fault) (key : KEY) (vp : ValuePtrType) (s : Cache) :
  let s' := (insert_entry ft key vp s).1 in
  d_evictionPolicy s' = d_evictionPolicy s ∧
  d_lowWatermark s' = d_lowWatermark s ∧
  d_highWatermark s' = d_highWatermark s ∧
  d_postEvictionCallback s' = d_postEvictionCallback s ∧
  g_calls s' = g_calls s.
Proof.
  unfold insert_entry. repeat case_decide; try done.
  all: by destruct (d_map s !! key) as [[v0 c]|].
Qed.

Lemma size_insert_entry (ft : fault) (key : KEY) (vp : ValuePtrType) (s : Cache) :
  size (d_map (insert_entry ft key vp s).1) =
  match (insert_entry ft key vp s).2 with
  | Ret true => S (size (d_map s))
  | _ => size (d_map s)
  end.
Proof.
  unfold insert_entry. destruct (decide (ft = ThrowFind)); [done|].
  destruct (d_map s !! key) as [[v0 c]|] eqn:Hk; simpl.
  - by rewrite map_size_insert, Hk.
  - repeat case_decide; simpl; try done. by rewrite map_size_insert, Hk.
Qed.

(** Case split on how the burst opening an insert on [s] ends: it returned
    or a callback threw; [Hwf1] says the cache it leaves is well formed. *)
Tactic Notation "burst_cases" constr(s) constr(Hwf)
    "as" ident(n) ident(Henf) ident(Ho) ident(Hwf1) :=
  let o := fresh "o" in
  destruct (enforceHighWatermark_spec s Hwf) as (n & o & Henf & Ho);
  pose proof (wf_evict_front n _ Hwf) as Hwf1;
  destruct o as [[]| |]; [| |done].

Lemma keeps_insertValuePtrMoveImp (B : Prop) (ft : fault) (key : KEY)
    (moveKey : bool) (valuePtr : ValuePtrType) (moveValuePtr : bool) :
  keeps B (insertValuePtrMoveImp ft key moveKey valuePtr moveValuePtr).
Proof.
  intros cfg s (Hwf & Hcfg & Hb).
  burst_cases s Hwf as n Henf Ho Hwf1.
  - rewrite (insertValuePtrMoveImp_run _ _ _ _ _ _ _ Hwf1 Henf).
    destruct (wf_insert_entry ft key valuePtr _ Hwf1) as [Hwf2 Hdef].
    split; [|done]. split_and!; [done | |].
    { destruct (insert_entry_frame ft key valuePtr (evict_front n s))
        as (Hp & Hl & Hh & _).
      unfold config. by rewrite Hp, Hl, Hh. }
    intros HB. destruct (Hb HB) as [Hw Hsz]. unfold bounded.
    destruct (insert_entry_frame ft key valuePtr (evict_front n s))
      as (_ & -> & -> & _).
    rewrite size_insert_entry, (size_evict_front _ _ Hwf). simpl.
    split; [done|]. subst n. unfold burst.
    destruct (size (d_map s) <? d_highWatermark s) eqn:Hhi.
    + apply Nat.ltb_lt in Hhi.
      match goal with |- match ?o with _ => _ end ≤ _ => destruct o as [[]| |] end; lia.
    + apply Nat.ltb_ge in Hhi.
      match goal with |- match ?o with _ => _ end ≤ _ => destruct o as [[]| |] end; lia.
  - rewrite (insertValuePtrMoveImp_throw _ _ _ _ _ _ _ Henf). simpl.
    split; [|done]. split_and!; [done | done |].
    intros HB. destruct (Hb HB) as [Hw Hsz]. unfold bounded.
    rewrite (size_evict_front _ _ Hwf). simpl. split; [done | lia].
Qed.

(** ** tryGetValue *)

Lemma queue_without_last (q : QueueType) (c : node) (k : KEY) :
  NoDup q.*1 → last q = Some (c, k) → queue_without c q ++ [(c, k)] = q.
Proof.
  intros Hnd [q' ->]%last_Some.
  rewrite fmap_app in Hnd. apply NoDup_app in Hnd as (_ & Hc & _).
  unfold queue_without. rewrite filter_app, filter_cons_False, filter_nil.
  - rewrite app_nil_r. f_equal. apply queue_without_fresh.
    intros Hin. apply (Hc _ Hin). simpl. left.
  - simpl. tauto.
Qed.

Lemma spliced_replaced (c : node) (key : KEY) (v : ValuePtrType) (s : Cache) :
  d_map s !! key = Some (v, c) → spliced c key s = replaced key v c s.
Proof.
  intros Hk. unfold spliced, replaced. rewrite insert_id by done.
  by destruct s.
Qed.

Lemma tryGetValue_hit (value v : ValuePtrType) (key : KEY) (c : node)
    (modifyEvictionQueue : bool) (s : Cache) :
  wf s → d_map s !! key = Some (v, c) →
  tryGetValue value key modifyEvictionQueue s =
  (if writeLock s modifyEvictionQueue then spliced c key s else s, Ret (0%Z, v)).
Proof.
  intros Hwf Hk. unfold tryGetValue.
  rewrite (bind_Ret _ _ s s s) by done.
  rewrite (bind_Ret _ _ _ _ _ (map_find_run key s)), Hk. simpl.
  destruct (writeLock s modifyEvictionQueue); [|done].
  pose proof (wf_map _ Hwf _ _ _ Hk) as Hin.
  pose proof (queue_holds_NoDup _ _ _ (wf_nodup _ Hwf) Hin) as Hq.
  unfold bind at 1. rewrite (bind_Ret _ _ s s s) by done.
  unfold queue_last.
  destruct (last (d_queue s)) as [[l kl]|] eqn:Hl; simpl.
  - destruct (decide (l ≠ c)) as [Hne|Heq].
    + unfold queue_splice_back. by rewrite Hq.
    + apply dec_stable in Heq. subst l. simpl.
      pose proof (last_Some_elem_of _ _ Hl) as Hin'.
      pose proof (queue_holds_NoDup _ _ _ (wf_nodup _ Hwf) Hin') as Hq'.
      assert (kl = key) as -> by congruence.
      unfold spliced. rewrite queue_without_last by (done || apply Hwf).
      by rewrite set_queue_same.
  - apply last_None in Hl. rewrite Hl in Hin. by apply elem_of_nil in Hin.
Qed.

Lemma tryGetValue_miss (value : ValuePtrType) (key : KEY)
    (modifyEvictionQueue : bool) (s : Cache) :
  d_map s !! key = None →
  tryGetValue value key modifyEvictionQueue s = (s, Ret (1%Z, value)).
Proof.
  intros Hk. unfold tryGetValue.
  rewrite (bind_Ret _ _ s s s) by done.
  by rewrite (bind_Ret _ _ _ _ _ (map_find_run key s)), Hk.
Qed.

Lemma inv_spliced (B : Prop) cfg (c : node) (key : KEY) (v : ValuePtrType) (s : Cache) :
  inv B cfg s → d_map s !! key = Some (v, c) → inv B cfg (spliced c key s).
Proof.
  intros (Hwf & Hcfg & Hb) Hk. split_and!; [|done|done].
  rewrite (spliced_replaced _ _ _ _ Hk). by eapply wf_replaced.
Qed.

(** ** The public manipulators keep the invariant *)

Lemma keeps_clear (B : Prop) : keeps B clear.
Proof.
  intros cfg s (Hwf & Hcfg & Hb). split; [|done]. split_and!.
  - split; simpl.
    + constructor.
    + intros c Hc. by apply elem_of_nil in Hc.
    + intros k v c Hk. by rewrite lookup_empty in Hk.
    + intros c k Hin. by apply elem_of_nil in Hin.
  - done.
  - intros HB. destruct (Hb HB) as [Hw Hsz]. unfold bounded. simpl.
    rewrite map_size_empty. split; [done | lia].
Qed.

Lemma keeps_erase (B : Prop) (key : KEY) : keeps B (erase key).
Proof. apply keeps_find_evict; apply keeps_ret. Qed.

Lemma keeps_eraseBulk_from (B : Prop) (keys : list KEY) (count : Z) :
  keeps B (eraseBulk_from count keys).
Proof.
  revert count. induction keys as [|key rest IH]; intros count.
  - apply keeps_ret.
  - apply keeps_find_evict; apply IH.
Qed.

Lemma keeps_insert (B : Prop) (moveKey moveValue : bool) (ft : fault)
    (key : KEY) (value : VALUE) :
  keeps B (insert moveKey moveValue ft key value).
Proof.
  apply keeps_bind.
  - unfold populateValuePtrType. case_decide; by intros cfg s Hs.
  - intros vp. apply keeps_bind; [apply keeps_insertValuePtrMoveImp|].
    intros _. apply keeps_ret.
Qed.

Lemma keeps_insertPtr (B : Prop) (moveKey : bool) (ft : fault)
    (key : KEY) (valuePtr : ValuePtrType) :
  keeps B (insertPtr moveKey ft key valuePtr).
Proof.
  apply keeps_bind; [apply keeps_insertValuePtrMoveImp|].
  intros _. apply keeps_ret.
Qed.

Lemma keeps_insertBulk_from (B : Prop) (move : bool) (data : list KVType)
    (fts : list fault) (count : Z) :
  keeps B (insertBulk_from move count fts data).
Proof.
  revert fts count. induction data as [|[key vp] rest IH]; intros fts count.
  - apply keeps_ret.
  - apply keeps_bind; [apply keeps_insertValuePtrMoveImp|].
    intros b. apply IH.
Qed.

Lemma keeps_popFront (B : Prop) : keeps B popFront.
Proof.
  intros cfg s Hs. unfold popFront. rewrite (bind_Ret _ _ s s s) by done.
  destruct (0 <? size (d_map s)) eqn:Hpos; [|done].
  apply Nat.ltb_lt in Hpos.
  by apply (keeps_find_front_evict B cfg (ret 0%Z) s (keeps_ret B 0%Z)).
Qed.

Lemma keeps_setPostEvictionCallback (B : Prop) (cb : PostEvictionCallback) :
  keeps B (setPostEvictionCallback cb).
Proof.
  intros cfg s (Hwf & Hcfg & Hb). split; [|done].
  split_and!; [by apply wf_set_callback | done | done].
Qed.

Lemma keeps_tryGetValue (B : Prop) (value : ValuePtrType) (key : KEY)
    (modifyEvictionQueue : bool) :
  keeps B (tryGetValue value key modifyEvictionQueue).
Proof.
  intros cfg s Hs. destruct (d_map s !! key) as [[v c]|] eqn:Hk.
  - rewrite (tryGetValue_hit value v key c _ s) by (done || apply Hs).
    split; [|done]. simpl.
    destruct (writeLock s modifyEvictionQueue); [by eapply inv_spliced | done].
  - by rewrite tryGetValue_miss.
Qed.

(** Every call but [visit], whose visitor may dereference a null handle. *)
Lemma keeps_perform (B : Prop) (c : call) :
  (∀ visitor, c ≠ CallVisit visitor) → keeps B (perform c).
Proof.
  intros Hc.
  assert (∀ A (m : M A), keeps B m → keeps B (m >> ret tt)) as Hdrop.
  { intros A m Hm. apply keeps_bind; [done|]. intros _. apply keeps_ret. }
  destruct c; simpl.
  - apply keeps_clear.
  - apply Hdrop, keeps_erase.
  - apply Hdrop, keeps_eraseBulk_from.
  - apply keeps_insert.
  - apply keeps_insertPtr.
  - apply Hdrop, keeps_insertBulk_from.
  - apply Hdrop, keeps_popFront.
  - apply keeps_setPostEvictionCallback.
  - apply Hdrop, keeps_tryGetValue.
  - by intros cfg s Hs.
  - by destruct (Hc visitor).
Qed.

Lemma perform_visit (visitor : KEY → VALUE → bool) (s : Cache) :
  (perform (CallVisit visitor) s).1 = s.
Proof. simpl. unfold bind, visit. by destruct (visit_from _ _ _). Qed.

Lemma perform_inv (B : Prop) cfg (c : call) (s : Cache) :
  inv B cfg s → inv B cfg (perform c s).1.
Proof.
  intros Hs.
  assert ((∃ visitor, c = CallVisit visitor) ∨ ∀ visitor, c ≠ CallVisit visitor)
    as [[visitor ->]|Hc] by (destruct c; eauto).
  - by rewrite perform_visit.
  - by apply keeps_perform.
Qed.

Lemma perform_all_inv (B : Prop) cfg (cs : list call) (s : Cache) :
  inv B cfg s → inv B cfg (perform_all cs s).
Proof.
  revert s. induction cs as [|c cs IH]; intros s Hs; [done|].
  simpl. by apply IH, perform_inv.
Qed.

Lemma fmap_filter_agree {A C} (f : A → C) (P : A → Prop) (Q : C → Prop)
    `{∀ x, Decision (P x)} `{∀ y, Decision (Q y)} (l : list A) :
  (∀ x, x ∈ l → P x ↔ Q (f x)) → f <$> filter P l = filter Q (f <$> l).
Proof.
  induction l as [|x l IH]; intros Hl; [done|].
  assert (f <$> filter P l = filter Q (f <$> l)) as IH'.
  { apply IH. intros y Hy. apply Hl. by right. }
  rewrite fmap_cons. destruct (decide (P x)) as [HP|HP].
  - rewrite filter_cons_True, (filter_cons_True Q) by (done || by apply Hl; [left|]).
    by rewrite fmap_cons, IH'.
  - rewrite filter_cons_False, (filter_cons_False Q); [done| |done].
    intros HQ. apply HP, Hl; [left | done].
Qed.

Lemma queue_without_keys (s : Cache) (c : node) (key : KEY) :
  wf s → (c, key) ∈ d_queue s →
  (queue_without c (d_queue s)).*2 = filter (λ k, k ≠ key) (queue_keys s).
Proof.
  intros Hwf Hin. unfold queue_without, queue_keys.
  apply fmap_filter_agree. intros [c' k'] Hin'. simpl.
  pose proof (queue_holds_NoDup _ _ _ (wf_nodup _ Hwf) Hin) as Hq.
  pose proof (queue_holds_NoDup _ _ _ (wf_nodup _ Hwf) Hin') as Hq'.
  apply (wf_queue _ Hwf) in Hin as [v Hv].
  apply (wf_queue _ Hwf) in Hin' as [v' Hv'].
  split; intros Hne Heq; apply Hne; congruence.
Qed.

(** ** Inserts seen from the state the burst leaves *)

Lemma insertPtr_run (moveKey : bool) (ft : fault) (key : KEY)
    (valuePtr : ValuePtrType) (s s1 : Cache) :
  wf s1 → enforceHighWatermark s = (s1, Ret tt) →
  insertPtr moveKey ft key valuePtr s =
  bind (insert_entry ft key valuePtr) (λ _, ret tt) s1.
Proof.
  intros Hwf Henf. unfold insertPtr, bind.
  by rewrite (insertValuePtrMoveImp_run _ _ _ _ _ _ _ Hwf Henf).
Qed.

Lemma insert_run (moveKey moveValue : bool) (ft : fault) (key : KEY)
    (value : VALUE) (s s1 : Cache) :
  wf s1 → enforceHighWatermark s = (s1, Ret tt) → ft ≠ ThrowPopulate →
  insert moveKey moveValue ft key value s =
  bind (insert_entry ft key (Some value)) (λ _, ret tt) s1.
Proof.
  intros Hwf Henf Hft. unfold insert, populateValuePtrType.
  rewrite decide_False by done. unfold bind, ret.
  by rewrite (insertValuePtrMoveImp_run _ _ _ _ _ _ _ Hwf Henf).
Qed.

Lemma insertBulk_run (move : bool) (fts : list fault) (key : KEY)
    (valuePtr : ValuePtrType) (rest : list KVType) (s s1 : Cache) :
  wf s1 → enforceHighWatermark s = (s1, Ret tt) →
  insertBulk move fts ((key, valuePtr) :: rest) s =
  bind (insert_entry (default NoFault (head fts)) key valuePtr)
       (λ b, insertBulk_from move (if b : bool then 1 else 0)%Z (tail fts) rest) s1.
Proof.
  intros Hwf Henf. unfold insertBulk. cbn [insertBulk_from]. unfold bind.
  rewrite (insertValuePtrMoveImp_run _ _ _ _ _ _ _ Hwf Henf).
  by destruct (insert_entry _ _ _ _) as [s2 [[]| |]].
Qed.

Lemma insertPtr_throw (moveKey : bool) (ft : fault) (key : KEY)
    (valuePtr : ValuePtrType) (s s1 : Cache) :
  enforceHighWatermark s = (s1, Throw) →
  insertPtr moveKey ft key valuePtr s = (s1, Throw).
Proof.
  intros Henf. unfold insertPtr, bind.
  by rewrite (insertValuePtrMoveImp_throw _ _ _ _ _ _ _ Henf).
Qed.

Lemma insert_throw (moveKey moveValue : bool) (ft : fault) (key : KEY)
    (value : VALUE) (s s1 : Cache) :
  enforceHighWatermark s = (s1, Throw) → ft ≠ ThrowPopulate →
  insert moveKey moveValue ft key value s = (s1, Throw).
Proof.
  intros Henf Hft. unfold insert, populateValuePtrType.
  rewrite decide_False by done. unfold bind, ret.
  by rewrite (insertValuePtrMoveImp_throw _ _ _ _ _ _ _ Henf).
Qed.

(** ** What an insert stores *)

Lemma insert_entry_present (ft : fault) (key : KEY) (vp v0 : ValuePtrType)
    (it : node) (s : Cache) :
  d_map s !! key = Some (v0, it) → ft ≠ ThrowFind →
  insert_entry ft key vp s = (replaced key vp it s, Ret false).
Proof.
  intros Hk Hft. unfold insert_entry. rewrite decide_False by done.
  by rewrite Hk.
Qed.

Lemma insert_entry_stores (key : KEY) (vp : ValuePtrType) (s : Cache) :
  ∃ b it, (insert_entry NoFault key vp s).2 = Ret b ∧
    d_map (insert_entry NoFault key vp s).1 !! key = Some (vp, it) ∧
    last (d_queue (insert_entry NoFault key vp s).1) = Some (it, key).
Proof.
  unfold insert_entry. simpl.
  destruct (d_map s !! key) as [[v0 it]|]; simpl.
  - exists false, it. by rewrite lookup_insert_eq, last_snoc.
  - exists true, (g_fresh s). by rewrite lookup_insert_eq, last_snoc.
Qed.

Lemma nothrow_frame (s s' : Cache) :
  d_postEvictionCallback s' = d_postEvictionCallback s → nothrow s → nothrow s'.
Proof. unfold nothrow. by intros ->. Qed.

Lemma perform_inserts (c : call) (key : KEY) (vp : ValuePtrType) (s : Cache) :
  inserts c = Some (key, vp) →
  ∃ moveKey moveValuePtr,
    perform c s =
    (insertValuePtrMoveImp NoFault key moveKey vp moveValuePtr >> ret tt) s.
Proof.
  destruct c as [| | |mk mv [] k value|mk [] k valuePtr| | | | | |];
    simpl; intros [= -> <-].
  - by exists mk, true.
  - by exists mk, false.
Qed.

Lemma stores_after_insert (c : call) (key : KEY) (vp : ValuePtrType) (s : Cache) :
  wf s → nothrow s → inserts c = Some (key, vp) →
  (perform c s).2 = Ret tt ∧ wf (perform c s).1 ∧ nothrow (perform c s).1 ∧
  ∃ it, d_map (perform c s).1 !! key = Some (vp, it) ∧
        last (d_queue (perform c s).1) = Some (it, key).
Proof.
  intros Hwf Hnt Hc.
  destruct (perform_inserts c key vp s Hc) as (mk & mv & ->).
  pose proof (enforceHighWatermark_nothrow s Hwf Hnt) as Henf.
  pose proof (wf_evict_front (burst s) s Hwf) as Hwf1.
  unfold bind. rewrite (insertValuePtrMoveImp_run _ _ _ _ _ _ _ Hwf1 Henf).
  destruct (insert_entry_stores key vp (evict_front (burst s) s))
    as (b & it & Ho & Hm & Hl).
  destruct (wf_insert_entry NoFault key vp _ Hwf1) as [Hwf2 _].
  destruct (insert_entry_frame NoFault key vp (evict_front (burst s) s))
    as (_ & _ & _ & Hcb & _).
  destruct (insert_entry _ _ _ _) as [s2 o]. simpl in *. subst o. simpl.
  split_and!; [done | done | | by exists it].
  eapply nothrow_frame; [|exact Hnt]. by rewrite Hcb.
Qed.

Lemma filter_eq_notin {A} `{EqDecision A} (x : A) (l : list A) :
  x ∉ l → filter (λ y, y = x) l = [].
Proof.
  induction l as [|y l IH]; [done|].
  intros [Hne Hl]%not_elem_of_cons.
  rewrite filter_cons_False by congruence. auto.
Qed.

Lemma count_NoDup {A} `{EqDecision A} (x : A) (l : list A) :
  NoDup l → x ∈ l → length (filter (λ y, y = x) l) = 1.
Proof.
  induction 1 as [|y l Hy Hnd IH]; intros Hin.
  - by apply elem_of_nil in Hin.
  - destruct (decide (y = x)) as [->|Hne].
    + rewrite filter_cons_True by done. by rewrite filter_eq_notin.
    + rewrite filter_cons_False by done. apply IH.
      apply elem_of_cons in Hin as [->|]; done.
Qed.

(** ** eraseBulk *)

Lemma handle_of_delete (k k' : KEY) (m : gmap KEY MapValue) :
  k' ≠ k → handle_of (delete k m) k' = handle_of m k'.
Proof. intros Hne. unfold handle_of. by rewrite lookup_delete_ne. Qed.

Lemma int_wrap_small (z : Z) : (- 2 ^ 31 ≤ z < 2 ^ 31)%Z → int_wrap z = z.
Proof.
  intros Hz. unfold int_wrap. rewrite Z.mod_small; lia.
Qed.

Lemma int_add_wrap (a b : Z) : int_add (int_wrap a) b = int_wrap (a + b).
Proof.
  unfold int_add, int_wrap.
  replace ((a + 2 ^ 31) mod 2 ^ 32 - 2 ^ 31 + b + 2 ^ 31)%Z
    with ((a + 2 ^ 31) mod 2 ^ 32 + b)%Z by lia.
  rewrite Z.add_mod_idemp_l by lia. do 2 f_equal. lia.
Qed.

Lemma foldr_delete_absent (key : KEY) (m : gmap KEY MapValue) (l : list KEY) :
  m !! key = None → foldr delete m l !! key = None.
Proof.
  intros Hk. induction l as [|k l IH]; simpl; [done|].
  destruct (decide (k = key)) as [->|Hne];
    [by rewrite lookup_delete_eq | by rewrite lookup_delete_ne].
Qed.

(** The loop of [eraseBulk] on a well-formed cache: [ks] lists the entries
    it removes, in the order it removes them.  It stops at the first
    callback that throws, that callback's entry removed. *)
Lemma eraseBulk_from_spec (keys : list KEY) (count : Z) (s : Cache) :
  wf s →
  ∃ ks s' o, NoDup ks ∧ (∀ k, k ∈ ks → k ∈ keys ∧ is_Some (d_map s !! k)) ∧
    eraseBulk_from (int_wrap count) keys s = (s', o) ∧
    d_map s' = foldr delete (d_map s) ks ∧
    g_calls s' = g_calls s ++ match d_postEvictionCallback s with
                              | Some _ => handle_of (d_map s) <$> ks
                              | None => []
                              end ∧
    wf s' ∧
    match o with
    | Ret n => n = int_wrap (count + Z.of_nat (length ks)) ∧
               (∀ k, k ∈ keys → is_Some (d_map s !! k) → k ∈ ks) ∧
               d_map s' = foldr delete (d_map s) keys
    | Throw => ¬ nothrow s
    | Undef => False
    end.
Proof.
  revert count s. induction keys as [|key rest IH]; intros count s Hwf.
  - exists [], s, (Ret (int_wrap count)).
    split_and!; try done; try (by intros k ?%elem_of_nil); try (by constructor).
    + destruct (d_postEvictionCallback s); by rewrite app_nil_r.
    + f_equal. simpl. lia.
  - cbn [eraseBulk_from]. rewrite (bind_Ret _ _ _ _ _ (map_find_run key s)).
    destruct (d_map s !! key) as [[v c]|] eqn:Hk; simpl.
    + unfold bind. rewrite evictItem_run by done.
      pose proof (wf_called v _ (wf_evicted _ _ _ _ Hwf Hk)) as Hwf1.
      destruct (called_frame v (evicted key c s))
        as (Hm1 & _ & _ & _ & _ & Hcb1 & _).
      destruct (invoke_callback_outcome v (evicted key c s)) as [Hr|[Ht Hcb]].
      * rewrite Hr, int_add_wrap.
        destruct (IH (count + 1)%Z _ Hwf1)
          as (ks & s' & o & Hnd & Hks & Hrun & Hm & Hc & Hwf' & Ho).
        rewrite Hm1 in Hks, Hm, Hc, Ho. rewrite Hcb1 in Hc. simpl in Hks, Hm, Hc, Ho.
        assert (key ∉ ks) as Hkey.
        { intros [_ Hs]%Hks. rewrite lookup_delete_eq in Hs. by destruct Hs. }
        exists (key :: ks), s', o. split_and!.
        -- by constructor.
        -- intros k [->|Hin]%elem_of_cons; [split; [left | eauto]|].
           destruct (Hks k Hin) as [Hin' Hs]. split; [by right|].
           destruct (decide (k = key)) as [->|Hne]; [by eauto|].
           by rewrite lookup_delete_ne in Hs.
        -- done.
        -- rewrite Hm. simpl. apply foldr_delete_commute.
        -- rewrite Hc. unfold called. simpl.
           destruct (d_postEvictionCallback s) as [cb|]; simpl; [|done].
           rewrite <- app_assoc. simpl. do 2 f_equal.
           { unfold handle_of. by rewrite Hk. }
           apply list_fmap_ext. intros i k Hi. apply handle_of_delete.
           intros ->. apply Hkey. by eapply list_elem_of_lookup_2.
        -- done.
        -- destruct o as [n| |]; [|by intros Hnt; apply Ho, nothrow_called|done].
           destruct Ho as (-> & Hall & Hm'). split_and!.
           ++ f_equal. simpl length. lia.
           ++ intros k Hin Hs. destruct (decide (k = key)) as [->|Hne]; [left|].
              right. apply Hall; [|by rewrite lookup_delete_ne].
              apply elem_of_cons in Hin as [->|]; done.
           ++ rewrite Hm'. simpl. apply foldr_delete_commute.
      * rewrite Ht. destruct Hcb as (cb & Hcb & Hthrows). simpl in Hcb.
        exists [key], (called v (evicted key c s)), Throw. split_and!.
        -- apply NoDup_singleton.
        -- intros k ->%list_elem_of_singleton. split; [left | eauto].
        -- done.
        -- by rewrite Hm1.
        -- unfold called. simpl. rewrite Hcb. simpl.
           unfold handle_of. by rewrite Hk.
        -- done.
        -- intros Hnt. by rewrite (Hnt cb Hcb) in Hthrows.
    + destruct (IH count s Hwf)
        as (ks & s' & o & Hnd & Hks & Hrun & Hm & Hc & Hwf' & Ho).
      exists ks, s', o. split_and!; try done.
      * intros k Hin. destruct (Hks k Hin). split; [by right | done].
      * destruct o as [n| |]; [|done..].
        destruct Ho as (-> & Hall & Hm'). split_and!; [done| |].
        -- intros k [->|Hin]%elem_of_cons Hs; [|by apply Hall].
           rewrite Hk in Hs. by destruct Hs.
        -- rewrite Hm'. simpl. symmetry. apply delete_id.
           by apply foldr_delete_absent.
Qed.

(** ** erase and popFront *)

Lemma erase_hit (key : KEY) (v : ValuePtrType) (c : node) (s : Cache) :
  wf s → d_map s !! key = Some (v, c) →
  (erase key s).1 = called v (evicted key c s) ∧
  ((erase key s).2 = Ret 0%Z ∨ (erase key s).2 = Throw).
Proof.
  intros Hwf Hk. unfold erase.
  rewrite (bind_Ret _ _ _ _ _ (map_find_run key s)), Hk. simpl.
  unfold bind. rewrite evictItem_run by done.
  destruct (invoke_callback_outcome v (evicted key c s)) as [-> | [-> _]]; auto.
Qed.

Lemma erase_miss (key : KEY) (s : Cache) :
  d_map s !! key = None → erase key s = (s, Ret 1%Z).
Proof.
  intros Hk. unfold erase.
  by rewrite (bind_Ret _ _ _ _ _ (map_find_run key s)), Hk.
Qed.

Lemma popFront_nonempty (c : node) (k : KEY) (q : QueueType) (v : ValuePtrType)
    (s : Cache) :
  wf s → d_queue s = (c, k) :: q → d_map s !! k = Some (v, c) →
  (popFront s).1 = called v (evicted k c s) ∧
  ((popFront s).2 = Ret 0%Z ∨ (popFront s).2 = Throw).
Proof.
  intros Hwf Hq Hk. unfold popFront. rewrite (bind_Ret _ _ s s s) by done.
  pose proof (map_size_ne_0_lookup_2 (d_map s) k (mk_is_Some _ _ Hk)) as Hpos.
  rewrite (proj2 (Nat.ltb_lt _ _)) by lia.
  destruct (find_front_run _ _ _ _ Hwf Hq) as (v' & Hv' & Hff).
  assert (v' = v) as -> by congruence.
  rewrite (bind_Ret _ _ _ _ _ Hff). unfold bind. rewrite evictItem_run by done.
  destruct (invoke_callback_outcome v (evicted k c s)) as [-> | [-> _]]; auto.
Qed.

Lemma popFront_empty (s : Cache) :
  size (d_map s) = 0 → popFront s = (s, Ret 1%Z).
Proof.
  intros Hsz. unfold popFront. rewrite (bind_Ret _ _ s s s) by done.
  by rewrite Hsz.
Qed.

Lemma called_set (v : ValuePtrType) (s : Cache) cb :
  d_postEvictionCallback s = Some cb →
  called v s = set_calls (g_calls s ++ [v]) s.
Proof. unfold called. by intros ->. Qed.

(** An insert hands the callback what its burst hands it, nothing more. *)
Lemma insertValuePtrMoveImp_calls (ft : fault) (key : KEY) (moveKey : bool)
    (valuePtr : ValuePtrType) (moveValuePtr : bool) (s : Cache) :
  wf s →
  g_calls (insertValuePtrMoveImp ft key moveKey valuePtr moveValuePtr s).1 =
  g_calls (enforceHighWatermark s).1.
Proof.
  intros Hwf.
  burst_cases s Hwf as n Henf Ho Hwf1.
  - rewrite (insertValuePtrMoveImp_run _ _ _ _ _ _ _ Hwf1 Henf), Henf.
    by destruct (insert_entry_frame ft key valuePtr (evict_front n s))
      as (_ & _ & _ & _ & ->).
  - by rewrite (insertValuePtrMoveImp_throw _ _ _ _ _ _ _ Henf), Henf.
Qed.

Lemma insertValuePtrMoveImp_replaces (ft : fault) (key : KEY) (moveKey : bool)
    (valuePtr v0 : ValuePtrType) (moveValuePtr : bool) (it : node) (s : Cache) :
  wf s → size (d_map s) < d_highWatermark s →
  d_map s !! key = Some (v0, it) → ft ≠ ThrowFind →
  insertValuePtrMoveImp ft key moveKey valuePtr moveValuePtr s =
  (replaced key valuePtr it s, Ret false).
Proof.
  intros Hwf Hlt Hk Hft.
  pose proof (enforceHighWatermark_quiet s Hwf (burst_below_high s Hlt)) as Henf.
  rewrite (insertValuePtrMoveImp_run _ _ _ _ _ _ _ Hwf Henf).
  by eapply insert_entry_present.
Qed.

(** ** Exceptions during an insert *)

Lemma insert_populate_throws (moveKey moveValue : bool) (key : KEY)
    (value : VALUE) (s : Cache) :
  insert moveKey moveValue ThrowPopulate key value s = (s, Throw).
Proof. done. Qed.

Lemma insert_entry_throws (ft : fault) (key : KEY) (vp : ValuePtrType) (s : Cache) :
  (insert_entry ft key vp s).2 = Throw →
  d_map (insert_entry ft key vp s).1 = d_map s ∧
  d_queue (insert_entry ft key vp s).1 = d_queue s.
Proof.
  unfold insert_entry. destruct (decide (ft = ThrowFind)); [done|].
  destruct (d_map s !! key) as [[v0 c]|]; [done|].
  by repeat case_decide.
Qed.

(** When no eviction is due, an exception leaves map and queue as they
    were; otherwise they are as the burst left them. *)
Lemma insertValuePtrMoveImp_throws (ft : fault) (key : KEY) (moveKey : bool)
    (valuePtr : ValuePtrType) (moveValuePtr : bool) (s : Cache) :
  wf s →
  (insertValuePtrMoveImp ft key moveKey valuePtr moveValuePtr s).2 = Throw →
  d_map (insertValuePtrMoveImp ft key moveKey valuePtr moveValuePtr s).1 =
    d_map (enforceHighWatermark s).1 ∧
  d_queue (insertValuePtrMoveImp ft key moveKey valuePtr moveValuePtr s).1 =
    d_queue (enforceHighWatermark s).1.
Proof.
  intros Hwf.
  burst_cases s Hwf as n Henf Ho Hwf1.
  - rewrite (insertValuePtrMoveImp_run _ _ _ _ _ _ _ Hwf1 Henf), Henf.
    apply insert_entry_throws.
  - by rewrite (insertValuePtrMoveImp_throw _ _ _ _ _ _ _ Henf), Henf.
Qed.

Lemma insertValuePtrMoveImp_throws_below_high (ft : fault) (key : KEY)
    (moveKey : bool) (valuePtr : ValuePtrType) (moveValuePtr : bool) (s : Cache) :
  wf s → size (d_map s) < d_highWatermark s →
  (insertValuePtrMoveImp ft key moveKey valuePtr moveValuePtr s).2 = Throw →
  d_map (insertValuePtrMoveImp ft key moveKey valuePtr moveValuePtr s).1 = d_map s ∧
  d_queue (insertValuePtrMoveImp ft key moveKey valuePtr moveValuePtr s).1 = d_queue s.
Proof.
  intros Hwf Hlt Hthrow.
  destruct (insertValuePtrMoveImp_throws _ _ _ _ _ _ Hwf Hthrow) as [-> ->].
  by rewrite (enforceHighWatermark_quiet s Hwf (burst_below_high s Hlt)).
Qed.

(** ** Caches built by calls *)

Lemma wf_perform_all (cs : list call) (p : Enum) (lo hi : nat) :
  wf (perform_all cs (new_cache p lo hi)).
Proof.
  apply (perform_all_inv False (p, lo, hi) cs). split_and!; [|done|done].
  apply wf_new_cache.
Qed.

Lemma coupled_perform_all (cs : list call) (p : Enum) (lo hi : nat) :
  coupled (perform_all cs (new_cache p lo hi)).
Proof. apply wf_coupled, wf_perform_all. Qed.

Lemma size_perform_all (cs : list call) (p : Enum) (lo hi : nat) :
  1 ≤ lo ≤ hi → size (d_map (perform_all cs (new_cache p lo hi))) ≤ hi.
Proof.
  intros Hw.
  assert (inv True (p, lo, hi) (perform_all cs (new_cache p lo hi)))
    as (_ & Hcfg & Hb).
  { apply perform_all_inv. split_and!; [apply wf_new_cache | done |].
    intros _. split; [done|]. simpl. rewrite map_size_empty. lia. }
  destruct (Hb I) as [_ Hsz]. injection Hcfg as _ _ Hh. by rewrite Hh in Hsz.
Qed.

(** ** What a single insert leaves *)

Lemma wf_perform (c : call) (s : Cache) :
  wf s → wf (perform c s).1 ∧ config (perform c s).1 = config s.
Proof.
  intros Hwf.
  assert (inv False (config s) (perform c s).1) as (Hwf' & Hcfg & _); [|done].
  apply perform_inv. by split_and!.
Qed.

(** An insert that returns has stored its handle at the tail of the queue,
    whatever its burst evicted. *)
Lemma insert_returned_stores (c : call) (key : KEY) (vp : ValuePtrType) (s : Cache) :
  wf s → inserts c = Some (key, vp) → (perform c s).2 = Ret tt →
  ∃ it, d_map (perform c s).1 !! key = Some (vp, it) ∧
        last (d_queue (perform c s).1) = Some (it, key).
Proof.
  intros Hwf Hc.
  destruct (perform_inserts c key vp s Hc) as (mk & mv & ->).
  burst_cases s Hwf as n Henf Ho Hwf1.
  - unfold bind. rewrite (insertValuePtrMoveImp_run _ _ _ _ _ _ _ Hwf1 Henf).
    destruct (insert_entry_stores key vp (evict_front n s))
      as (b & it & Ho' & Hm & Hl).
    destruct (insert_entry _ _ _ _) as [s2 o]. simpl in *. subst o.
    intros _. by exists it.
  - unfold bind. by rewrite (insertValuePtrMoveImp_throw _ _ _ _ _ _ _ Henf).
Qed.

(** Below the high watermark a single insert is [insert_entry]. *)
Lemma insert_below_high_run (c : call) (key : KEY) (vp : ValuePtrType) (s : Cache) :
  wf s → inserts c = Some (key, vp) → size (d_map s) < d_highWatermark s →
  perform c s = ((insert_entry NoFault key vp s).1, Ret tt).
Proof.
  intros Hwf Hc Hlt.
  destruct (perform_inserts c key vp s Hc) as (mk & mv & ->).
  pose proof (enforceHighWatermark_quiet s Hwf (burst_below_high s Hlt)) as Henf.
  unfold bind. rewrite (insertValuePtrMoveImp_run _ _ _ _ _ _ _ Hwf Henf).
  destruct (insert_entry_stores key vp s) as (b & it & Ho & _).
  destruct (insert_entry NoFault key vp s) as [s' o]. simpl in *. by subst o.
Qed.

(** ** A callback that throws in a burst *)

Lemma throws_on_0 (s : Cache) (c : node) (k : KEY) (q : QueueType)
    (v : ValuePtrType) cb :
  d_queue s = (c, k) :: q → d_map s !! k = Some (v, c) →
  d_postEvictionCallback s = Some cb →
  throws_on s 0 = cb (g_calls s) v.
Proof.
  intros Hq Hk Hcb. unfold throws_on. rewrite Hcb, Hq. simpl.
  rewrite app_nil_r. unfold handle_of. by rewrite Hk.
Qed.

Lemma throws_on_S (s : Cache) (c : node) (k : KEY) (q : QueueType)
    (v : ValuePtrType) (j : nat) :
  wf s → d_queue s = (c, k) :: q → d_map s !! k = Some (v, c) →
  throws_on (called v (evicted k c s)) j = throws_on s (S j).
Proof.
  intros Hwf Hq Hk.
  pose proof (wf_nodup _ Hwf) as Hnd. pose proof (wf_keys_NoDup _ Hwf) as Hkd.
  unfold queue_keys in Hkd. rewrite Hq in Hnd, Hkd.
  simpl in Hkd. apply NoDup_cons in Hkd as [Hkq _].
  assert (queue_without c (d_queue s) = q) as Hw.
  { rewrite Hq. by apply queue_without_head. }
  unfold throws_on.
  destruct (called_frame v (evicted k c s)) as (-> & -> & _ & _ & _ & -> & _).
  simpl. rewrite Hw, Hq. simpl.
  destruct (d_postEvictionCallback s) as [cb|] eqn:Hcb; [|done].
  destruct (q !! j) as [[c' k']|] eqn:Hj; [|done].
  rewrite (called_set v (evicted k c s) cb) by done. simpl.
  rewrite <- app_assoc. simpl. f_equal.
  - do 2 f_equal; [unfold handle_of; by rewrite Hk|].
    apply handles_delete. intros Hin. apply Hkq. rewrite fmap_take in Hin.
    eapply elem_of_sublist; [exact Hin | apply sublist_take].
  - apply handle_of_delete. intros ->. apply Hkq.
    apply list_elem_of_fmap. exists (c', k). split; [done|].
    by eapply list_elem_of_lookup_2.
Qed.

(** The loop of [enforceHighWatermark] stops at the first victim on which
    the callback throws, that victim evicted and the later ones left. *)
Lemma evict_loop_throws (fuel : nat) (s : Cache) (j : nat) :
  wf s → size (d_map s) ≤ fuel →
  j < size (d_map s) - (d_lowWatermark s - 1) →
  (∀ i, i < j → throws_on s i = false) → throws_on s j = true →
  evict_loop fuel s = (evict_front (S j) s, Throw).
Proof.
  revert s j. induction fuel as [|fuel IH]; intros s j Hwf Hsz Hj Hbefore Hthrows.
  { lia. }
  cbn [evict_loop]. rewrite (bind_Ret _ _ s s s) by done.
  rewrite (proj2 (Nat.leb_le _ _)), (proj2 (Nat.ltb_lt _ _)) by lia. simpl.
  destruct (wf_nonempty s Hwf) as (c & k & q & Hq); [lia|].
  destruct (find_front_run _ _ _ _ Hwf Hq) as (v & Hv & Hff).
  rewrite (bind_Ret _ _ _ _ _ Hff). unfold bind.
  rewrite evictItem_run by done.
  pose proof (wf_called v _ (wf_evicted _ _ _ _ Hwf Hv)) as Hwf1.
  pose proof (size_evicted _ _ _ _ Hv) as Hsz1.
  destruct (called_frame v (evicted k c s)) as (Hm1 & _ & _ & Hl1 & _).
  rewrite (evict_front_S _ _ _ _ _ _ Hwf Hq Hv).
  destruct j as [|j].
  - destruct (d_postEvictionCallback s) as [cb|] eqn:Hcb;
      [|unfold throws_on in Hthrows; by rewrite Hcb in Hthrows].
    rewrite (throws_on_0 s c k q v cb) in Hthrows by done.
    rewrite (invoke_callback_throws v (evicted k c s) cb) by done.
    by rewrite evict_front_0, (called_set v (evicted k c s) cb).
  - destruct (invoke_callback_outcome v (evicted k c s)) as [->|[_ (cb & Hcb & Ht)]].
    + apply IH; [done | rewrite Hm1; lia | rewrite Hm1, Hl1; simpl in *; lia | |].
      * intros i Hi. rewrite (throws_on_S s c k q v i) by done. apply Hbefore. lia.
      * by rewrite (throws_on_S s c k q v j).
    + simpl in Hcb, Ht. rewrite <- (throws_on_0 s c k q v cb) in Ht by done.
      rewrite Hbefore in Ht by lia. done.
Qed.

Lemma enforceHighWatermark_throws (s : Cache) (j : nat) :
  wf s → d_highWatermark s ≤ size (d_map s) →
  j < size (d_map s) - (d_lowWatermark s - 1) →
  (∀ i, i < j → throws_on s i = false) → throws_on s j = true →
  enforceHighWatermark s = (evict_front (S j) s, Throw).
Proof.
  intros Hwf Hhi Hj Hbefore Hthrows.
  unfold enforceHighWatermark. rewrite (bind_Ret _ _ s s s) by done.
  rewrite (proj2 (Nat.ltb_ge _ _)) by done.
  by apply evict_loop_throws.
Qed.

(** Evicting one entry more: the entry then at the front. *)
Lemma evict_front_snoc (j : nat) (s : Cache) (it : node) (k : KEY) :
  wf s → d_queue s !! j = Some (it, k) →
  evict_front (S j) s =
  called (handle_of (d_map s) k) (evicted k it (evict_front j s)).
Proof.
  revert s. induction j as [|j IH]; intros s Hwf Hj.
  - destruct (d_queue s) as [|[c k'] q] eqn:Hq; [done|].
    simpl in Hj. injection Hj as -> ->.
    destruct (wf_front _ _ _ _ Hwf Hq) as [v Hv].
    rewrite (evict_front_S _ _ _ _ _ _ Hwf Hq Hv), !evict_front_0.
    unfold handle_of. by rewrite Hv.
  - destruct (d_queue s) as [|[c k'] q] eqn:Hq; [done|].
    simpl in Hj.
    destruct (wf_front _ _ _ _ Hwf Hq) as [v Hv].
    pose proof (wf_called v _ (wf_evicted _ _ _ _ Hwf Hv)) as Hwf1.
    assert (queue_without c (d_queue s) = q) as Hw.
    { rewrite Hq. apply queue_without_head. rewrite <- Hq. apply Hwf. }
    assert (k ≠ k') as Hne.
    { pose proof (wf_keys_NoDup _ Hwf) as Hkd. unfold queue_keys in Hkd.
      rewrite Hq in Hkd. simpl in Hkd. apply NoDup_cons in Hkd as [Hkq _].
      intros ->. apply Hkq. apply list_elem_of_fmap. exists (it, k').
      split; [done|]. by eapply list_elem_of_lookup_2. }
    rewrite !(evict_front_S _ _ _ _ _ _ Hwf Hq Hv).
    rewrite (IH _ Hwf1).
    + destruct (called_frame v (evicted k' c s)) as (-> & _). simpl.
      by rewrite handle_of_delete.
    + destruct (called_frame v (evicted k' c s)) as (_ & -> & _). simpl.
      by rewrite Hw.
Qed.

(** * Properties of the cache *)

(** C1.  On a cache with a low watermark of at least 1 whose size has
    reached the high watermark, and whose callback does not throw, the
    burst that opens every insert removes the entries at the front of the
    queue one by one -- each leaves the map and the queue and its handle
    goes to the callback, if one is set -- and stops as soon as the size is
    below the low watermark; every insert variant then goes on from that
    state. *)
Theorem C1_high_watermark_burst (s : Cache) :
  wf s →
  1 ≤ d_lowWatermark s →
  d_highWatermark s ≤ size (d_map s) →
  nothrow s →
  let n := size (d_map s) - (d_lowWatermark s - 1) in
  let victims := take n (d_queue s) in
  ∃ s1,
    enforceHighWatermark s = (s1, Ret tt) ∧
    d_queue s1 = drop n (d_queue s) ∧
    d_map s1 = foldr delete (d_map s) victims.*2 ∧
    g_calls s1 = g_calls s ++ match d_postEvictionCallback s with
                              | Some _ => handles (d_map s) victims
                              | None => []
                              end ∧
    size (d_map s1) < d_lowWatermark s1 ∧
    (∀ j, j < n → d_lowWatermark s ≤ size (d_map (evict_front j s))) ∧
    (∀ ft key moveKey valuePtr moveValuePtr,
       insertValuePtrMoveImp ft key moveKey valuePtr moveValuePtr s =
       insert_entry ft key valuePtr s1) ∧
    (∀ moveKey moveValue ft key value, ft ≠ ThrowPopulate →
       insert moveKey moveValue ft key value s =
       bind (insert_entry ft key (Some value)) (λ _, ret tt) s1) ∧
    (∀ moveKey ft key valuePtr,
       insertPtr moveKey ft key valuePtr s =
       bind (insert_entry ft key valuePtr) (λ _, ret tt) s1) ∧
    (∀ move fts key valuePtr rest,
       insertBulk move fts ((key, valuePtr) :: rest) s =
       bind (insert_entry (default NoFault (head fts)) key valuePtr)
            (λ b, insertBulk_from move (if b : bool then 1 else 0)%Z (tail fts) rest) s1).
Proof.
  intros Hwf Hw Hhi Hnt n victims.
  assert (burst s = n) as Hb.
  { unfold burst. by rewrite (proj2 (Nat.ltb_ge _ _)). }
  pose proof (enforceHighWatermark_nothrow s Hwf Hnt) as Henf. rewrite Hb in Henf.
  pose proof (wf_evict_front n s Hwf) as Hwf1.
  exists (evict_front n s). split_and!; try done.
  - rewrite (size_evict_front _ _ Hwf). simpl. lia.
  - intros j Hj. rewrite (size_evict_front _ _ Hwf). lia.
  - intros. by apply insertValuePtrMoveImp_run.
  - intros. by apply insert_run.
  - intros. by apply insertPtr_run.
  - intros. by apply insertBulk_run.
Qed.

(** C2.  A call on a cache whose index and queue correspond leaves them
    corresponding: afterwards the map and the queue have equal size, the
    iterator stored with each key designates a queue node holding that
    key, and the key of every queue node is in the map.  This holds for
    every public operation and however the call ends. *)
Theorem C2_index_queue_coupled (c : call) (s : Cache) :
  wf s →
  wf (perform c s).1 ∧
  size (d_map (perform c s).1) = length (d_queue (perform c s).1) ∧
  (∀ k v it, d_map (perform c s).1 !! k = Some (v, it) →
             queue_holds it (d_queue (perform c s).1) = Some k) ∧
  (∀ it k, (it, k) ∈ d_queue (perform c s).1 → is_Some (d_map (perform c s).1 !! k)).
Proof.
  intros Hwf.
  assert (inv False (config s) (perform c s).1) as (Hwf' & _).
  { apply perform_inv. by split_and!. }
  split; [done|]. by destruct (wf_coupled _ Hwf').
Qed.

(** C3, as the code has it.  An insert of a key that is present, begun
    while the size is below the high watermark, evicts nothing and keeps the
    size: it overwrites the key's handle, relinks the key's node at the back
    and hands nothing to the callback.  (At or above the high watermark the
    burst of C1 runs first, as for any insert.) *)
Theorem C3_replacement_below_high (ft : fault) (key : KEY) (moveKey : bool)
    (valuePtr v0 : ValuePtrType) (moveValuePtr : bool) (it : node) (s : Cache) :
  wf s → size (d_map s) < d_highWatermark s →
  d_map s !! key = Some (v0, it) → ft ≠ ThrowFind →
  ∃ s', insertValuePtrMoveImp ft key moveKey valuePtr moveValuePtr s = (s', Ret false) ∧
    d_map s' = <[key := (valuePtr, it)]> (d_map s) ∧
    d_queue s' = queue_without it (d_queue s) ++ [(it, key)] ∧
    size (d_map s') = size (d_map s) ∧
    dom (d_map s') = dom (d_map s) ∧
    d_queue s' ≡ₚ d_queue s ∧
    g_calls s' = g_calls s.
Proof.
  intros Hwf Hlt Hk Hft. exists (replaced key valuePtr it s).
  split_and!; try done.
  - by eapply insertValuePtrMoveImp_replaces.
  - simpl. by rewrite map_size_insert, Hk.
  - simpl. rewrite dom_insert_L. apply subseteq_union_1_L.
    apply singleton_subseteq_l, elem_of_dom. eauto.
  - simpl. pose proof (wf_map _ Hwf _ _ _ Hk) as Hin.
    apply NoDup_Permutation.
    + eapply NoDup_fmap_1. apply (wf_nodup _ (wf_replaced key valuePtr v0 it s Hwf Hk)).
    + eapply NoDup_fmap_1, wf_nodup, Hwf.
    + intros [c k]. rewrite elem_of_app, list_elem_of_singleton, elem_of_queue_without.
      split.
      * intros [[_ ?]|[= -> ->]]; done.
      * intros Hin'. destruct (decide (c = it)) as [->|Hne]; [|by left].
        right. f_equal.
        pose proof (queue_holds_NoDup _ _ _ (wf_nodup _ Hwf) Hin).
        pose proof (queue_holds_NoDup _ _ _ (wf_nodup _ Hwf) Hin').
        congruence.
Qed.

(** C4, as the code has it.  With watermarks 1 <= low <= high, a call on a
    cache whose size is at most the high watermark leaves the size at most
    the high watermark, and leaves the watermarks alone.  The bound is not
    strict: an insert evicts before it adds, so it can return with the size
    equal to the high watermark. *)
Theorem C4_size_within_high (c : call) (s : Cache) :
  wf s →
  1 ≤ d_lowWatermark s ≤ d_highWatermark s →
  size (d_map s) ≤ d_highWatermark s →
  size (d_map (perform c s).1) ≤ d_highWatermark s ∧
  d_lowWatermark (perform c s).1 = d_lowWatermark s ∧
  d_highWatermark (perform c s).1 = d_highWatermark s.
Proof.
  intros Hwf Hw Hsz.
  assert (inv True (config s) (perform c s).1) as (_ & Hcfg & Hb).
  { apply perform_inv. by split_and!. }
  destruct (Hb I) as [_ Hsz']. unfold config in Hcfg.
  injection Hcfg as _ Hl Hh. rewrite Hh in Hsz'. done.
Qed.

(** C5.  A [tryGetValue] that finds its key returns 0 and loads the stored
    handle.  Under LRU with [modifyEvictionQueue] the key's node is relinked
    at the back: the key becomes the tail and the other keys keep their
    order.  Under FIFO, or without [modifyEvictionQueue], the cache is left
    as it was. *)
Theorem C5_tryGetValue_hit (value v : ValuePtrType) (key : KEY) (it : node)
    (modifyEvictionQueue : bool) (s : Cache) :
  wf s → d_map s !! key = Some (v, it) →
  ∃ s', tryGetValue value key modifyEvictionQueue s = (s', Ret (0%Z, v)) ∧
    (d_evictionPolicy s = e_LRU → modifyEvictionQueue = true →
       s' = set_queue (queue_without it (d_queue s) ++ [(it, key)]) s ∧
       queue_keys s' = filter (λ k, k ≠ key) (queue_keys s) ++ [key] ∧
       last (queue_keys s') = Some key) ∧
    (d_evictionPolicy s = e_FIFO ∨ modifyEvictionQueue = false → s' = s).
Proof.
  intros Hwf Hk. eexists. split; [by apply tryGetValue_hit|].
  unfold writeLock. split.
  - intros -> ->. rewrite bool_decide_eq_true_2 by done. simpl.
    split; [done|].
    assert (queue_keys (spliced it key s) =
            filter (λ k, k ≠ key) (queue_keys s) ++ [key]) as ->.
    { unfold queue_keys at 1. simpl. rewrite fmap_app. simpl.
      rewrite (queue_without_keys s it key); [done..|]. by eapply wf_map. }
    split; [done | apply last_snoc].
  - intros [Hp | ->].
    + rewrite bool_decide_eq_false_2; [done|]. by rewrite Hp.
    + by rewrite andb_false_r.
Qed.

(** C6.  Two inserts of the same key in a row, by any single-insert
    overload, under either policy.  When the watermarks force no eviction
    -- each insert begins below the high watermark, as it always does in
    unbounded mode -- both inserts return, whatever the callback would do;
    the second overwrites the handle stored by the first and relinks the
    key's node at the back, with no change of size and no call of the
    callback; a lookup of the key then returns 0 with the second handle,
    the key has exactly one entry and is the tail of the queue; after the
    first insert alone a lookup returns 0 with the first handle.  The
    lookups come out the same with any watermarks whenever the inserts
    return, which they do when the callback does not throw. *)
Theorem C6_insert_then_lookup (c1 c2 : call) (key : KEY)
    (v1 v2 value : ValuePtrType) (modifyEvictionQueue : bool) (s : Cache) :
  wf s →
  inserts c1 = Some (key, v1) → inserts c2 = Some (key, v2) →
  let s1 := (perform c1 s).1 in
  let s2 := (perform c2 s1).1 in
  (size (d_map s) < d_highWatermark s → size (d_map s1) < d_highWatermark s →
     (perform c1 s).2 = Ret tt ∧ (perform c2 s1).2 = Ret tt ∧
     (tryGetValue value key modifyEvictionQueue s1).2 = Ret (0%Z, v1) ∧
     (tryGetValue value key modifyEvictionQueue s2).2 = Ret (0%Z, v2) ∧
     (∃ it, d_map s1 !! key = Some (v1, it) ∧ s2 = replaced key v2 it s1) ∧
     size (d_map s2) = size (d_map s1) ∧ g_calls s2 = g_calls s ∧
     length (filter (λ k, k = key) (queue_keys s2)) = 1 ∧
     last (queue_keys s2) = Some key) ∧
  ((perform c1 s).2 = Ret tt →
     (tryGetValue value key modifyEvictionQueue s1).2 = Ret (0%Z, v1)) ∧
  ((perform c2 s1).2 = Ret tt →
     (tryGetValue value key modifyEvictionQueue s2).2 = Ret (0%Z, v2) ∧
     length (filter (λ k, k = key) (queue_keys s2)) = 1 ∧
     last (queue_keys s2) = Some key) ∧
  (nothrow s → (perform c1 s).2 = Ret tt ∧ (perform c2 s1).2 = Ret tt).
Proof.
  intros Hwf Hc1 Hc2 s1 s2.
  destruct (wf_perform c1 s Hwf) as [Hwf1 Hcfg1]. fold s1 in Hwf1, Hcfg1.
  destruct (wf_perform c2 s1 Hwf1) as [Hwf2 _]. fold s2 in Hwf2.
  assert ((perform c1 s).2 = Ret tt →
          (tryGetValue value key modifyEvictionQueue s1).2 = Ret (0%Z, v1)) as Hget1.
  { intros Ho1.
    destruct (insert_returned_stores c1 key v1 s Hwf Hc1 Ho1) as (it1 & Hm1 & _).
    fold s1 in Hm1. by rewrite (tryGetValue_hit value v1 key it1 _ s1). }
  assert ((perform c2 s1).2 = Ret tt →
          (tryGetValue value key modifyEvictionQueue s2).2 = Ret (0%Z, v2) ∧
          length (filter (λ k, k = key) (queue_keys s2)) = 1 ∧
          last (queue_keys s2) = Some key) as Hget2.
  { intros Ho2.
    destruct (insert_returned_stores c2 key v2 s1 Hwf1 Hc2 Ho2) as (it2 & Hm2 & Hl2).
    fold s2 in Hm2, Hl2.
    assert (last (queue_keys s2) = Some key) as Hlast.
    { unfold queue_keys. by rewrite fmap_last, Hl2. }
    split_and!; [|  | done].
    - by rewrite (tryGetValue_hit value v2 key it2 _ s2).
    - apply count_NoDup; [by apply wf_keys_NoDup|]. by apply last_Some_elem_of. }
  split_and!; [| done | done |].
  - intros Hlt Hlt1.
    pose proof (insert_below_high_run c1 key v1 s Hwf Hc1 Hlt) as Hrun1.
    assert ((perform c1 s).2 = Ret tt) as Ho1 by by rewrite Hrun1.
    destruct (insert_returned_stores c1 key v1 s Hwf Hc1 Ho1) as (it1 & Hm1 & _).
    fold s1 in Hm1.
    assert (d_highWatermark s1 = d_highWatermark s) as Hhi.
    { unfold config in Hcfg1. by injection Hcfg1. }
    rewrite <- Hhi in Hlt1.
    pose proof (insert_below_high_run c2 key v2 s1 Hwf1 Hc2 Hlt1) as Hrun2.
    rewrite (insert_entry_present NoFault key v2 v1 it1 s1 Hm1) in Hrun2 by done.
    assert ((perform c2 s1).2 = Ret tt) as Ho2 by by rewrite Hrun2.
    assert (s2 = replaced key v2 it1 s1) as Hs2 by (unfold s2; by rewrite Hrun2).
    destruct (Hget2 Ho2) as (Hg2 & Hone & Hlast).
    split_and!; try done; [by auto | by exists it1 | |].
    + rewrite Hs2. simpl. by rewrite map_size_insert, Hm1.
    + rewrite Hs2. simpl. unfold s1. rewrite Hrun1. simpl.
      by destruct (insert_entry_frame NoFault key v1 s) as (_ & _ & _ & _ & ->).
  - intros Hnt.
    destruct (stores_after_insert c1 key v1 s Hwf Hnt Hc1) as (Ho1 & _ & Hnt1 & _).
    fold s1 in Hnt1.
    by destruct (stores_after_insert c2 key v2 s1 Hwf1 Hnt1 Hc2) as (Ho2 & _).
Qed.

(** C7, as the code has it.  With a callback set: each entry a watermark
    burst removes goes to the callback once, in queue order, and an insert
    makes no call beyond those of its burst; [erase] and [popFront] of an
    entry make one call, with that entry's handle; [eraseBulk] makes one
    call for each entry it removes, in the order of the range, whether it
    returns or is stopped by a callback that throws; [clear] removes every
    entry and makes none; an insert that begins below the high watermark
    and replaces the handle of a present key makes none.  (At or above the
    high watermark the burst runs first, as for any insert, and its victims
    go to the callback.) *)
Theorem C7_callback_once_per_departure (s : Cache) cb :
  wf s → d_postEvictionCallback s = Some cb →
  (∃ n, d_queue (enforceHighWatermark s).1 = drop n (d_queue s) ∧
        d_map (enforceHighWatermark s).1 =
          foldr delete (d_map s) (take n (d_queue s)).*2 ∧
        g_calls (enforceHighWatermark s).1 =
          g_calls s ++ handles (d_map s) (take n (d_queue s))) ∧
  (∀ ft key moveKey valuePtr moveValuePtr,
     g_calls (insertValuePtrMoveImp ft key moveKey valuePtr moveValuePtr s).1 =
     g_calls (enforceHighWatermark s).1) ∧
  (∀ key v it, d_map s !! key = Some (v, it) →
     d_map (erase key s).1 = delete key (d_map s) ∧
     d_queue (erase key s).1 = queue_without it (d_queue s) ∧
     g_calls (erase key s).1 = g_calls s ++ [v]) ∧
  (∀ key, d_map s !! key = None → erase key s = (s, Ret 1%Z)) ∧
  (∀ it k q v, d_queue s = (it, k) :: q → d_map s !! k = Some (v, it) →
     d_map (popFront s).1 = delete k (d_map s) ∧
     d_queue (popFront s).1 = q ∧
     g_calls (popFront s).1 = g_calls s ++ [v]) ∧
  (∀ keys, ∃ ks s' o,
     NoDup ks ∧ (∀ k, k ∈ ks → k ∈ keys ∧ is_Some (d_map s !! k)) ∧
     eraseBulk keys s = (s', o) ∧
     d_map s' = foldr delete (d_map s) ks ∧
     g_calls s' = g_calls s ++ (handle_of (d_map s) <$> ks) ∧
     match o with
     | Ret n => n = int_wrap (Z.of_nat (length ks)) ∧
                (∀ k, k ∈ keys → is_Some (d_map s !! k) → k ∈ ks)
     | Throw => ¬ nothrow s
     | Undef => False
     end) ∧
  (∃ s', clear s = (s', Ret tt) ∧ d_map s' = ∅ ∧ d_queue s' = [] ∧
         g_calls s' = g_calls s) ∧
  (∀ ft key moveKey valuePtr moveValuePtr v0 it,
     size (d_map s) < d_highWatermark s →
     d_map s !! key = Some (v0, it) → ft ≠ ThrowFind →
     ∃ s', insertValuePtrMoveImp ft key moveKey valuePtr moveValuePtr s =
             (s', Ret false) ∧
           d_map s' !! key = Some (valuePtr, it) ∧ g_calls s' = g_calls s).
Proof.
  intros Hwf Hcb. split_and!.
  - destruct (enforceHighWatermark_spec s Hwf) as (n & o & -> & _).
    exists n. simpl. by rewrite Hcb.
  - intros. by apply insertValuePtrMoveImp_calls.
  - intros key v it Hk. destruct (erase_hit key v it s Hwf Hk) as [-> _].
    by rewrite (called_set v (evicted key it s) cb).
  - intros key. apply erase_miss.
  - intros it k q v Hq Hk.
    destruct (popFront_nonempty it k q v s Hwf Hq Hk) as [-> _].
    rewrite (called_set v (evicted k it s) cb) by done. simpl.
    split_and!; [done | | done].
    rewrite Hq. apply queue_without_head. rewrite <- Hq. apply Hwf.
  - intros keys.
    destruct (eraseBulk_from_spec keys 0 s Hwf)
      as (ks & s' & o & H1 & H2 & H3 & H4 & H5 & _ & H6).
    exists ks, s', o. rewrite Hcb in H5. split_and!; try done.
    destruct o as [n| |]; [|done..]. by destruct H6 as (-> & ? & _).
  - by eexists.
  - intros ft key mk vp mv v0 it Hlt Hk Hft. exists (replaced key vp it s).
    split_and!; [by eapply insertValuePtrMoveImp_replaces | | done].
    simpl. by rewrite lookup_insert_eq.
Qed.

(** C9.  When the callback throws during a watermark burst, on whichever
    victim: that victim is already out of the map and the queue when the
    callback runs, and the cache the callback runs on is well formed; the
    exception leaves [enforceHighWatermark] and the insert, of any variant,
    that set off the burst; the victims up to that one are gone, each handed
    to the callback, and every later entry stays, also those the burst had
    still to evict, so the size is the original size minus the number of
    victims so far -- minus one when the first callback throws. *)
Theorem C9_callback_throws_in_burst (s : Cache) (j : nat) (it : node) (k : KEY) :
  wf s →
  d_highWatermark s ≤ size (d_map s) →
  j < size (d_map s) - (d_lowWatermark s - 1) →
  (∀ i, i < j → throws_on s i = false) → throws_on s j = true →
  d_queue s !! j = Some (it, k) →
  let v := handle_of (d_map s) k in
  let s0 := evict_front j s in
  let s1 := evicted k it s0 in
  let s' := evict_front (S j) s in
  d_queue s0 = (it, k) :: drop (S j) (d_queue s) ∧ d_map s0 !! k = Some (v, it) ∧
  evictItem (k, (v, it)) s0 = invoke_callback v s1 ∧
  d_map s1 !! k = None ∧ d_queue s1 = drop (S j) (d_queue s) ∧ wf s1 ∧ coupled s1 ∧
  invoke_callback v s1 = (s', Throw) ∧
  enforceHighWatermark s = (s', Throw) ∧
  (∀ ft key moveKey valuePtr moveValuePtr,
     insertValuePtrMoveImp ft key moveKey valuePtr moveValuePtr s = (s', Throw)) ∧
  (∀ moveKey moveValue ft key value, ft ≠ ThrowPopulate →
     insert moveKey moveValue ft key value s = (s', Throw)) ∧
  (∀ moveKey ft key valuePtr, insertPtr moveKey ft key valuePtr s = (s', Throw)) ∧
  (∀ move fts key valuePtr rest,
     insertBulk move fts ((key, valuePtr) :: rest) s = (s', Throw)) ∧
  d_queue s' = drop (S j) (d_queue s) ∧
  d_map s' = foldr delete (d_map s) (take (S j) (d_queue s)).*2 ∧
  g_calls s' = g_calls s ++ handles (d_map s) (take (S j) (d_queue s)) ∧
  size (d_map s') + S j = size (d_map s) ∧
  (S j < size (d_map s) - (d_lowWatermark s - 1) →
     d_lowWatermark s' ≤ size (d_map s') ∧ 0 < size (d_map s')) ∧
  wf s' ∧ coupled s'.
Proof.
  intros Hwf Hhi Hj Hbefore Hthrows Hq v s0 s1 s'.
  pose proof (enforceHighWatermark_throws s j Hwf Hhi Hj Hbefore Hthrows) as Henf.
  fold s' in Henf.
  pose proof (wf_evict_front j s Hwf) as Hwf0. fold s0 in Hwf0.
  pose proof (wf_evict_front (S j) s Hwf) as Hwf'. fold s' in Hwf'.
  pose proof (size_evict_front (S j) s Hwf) as Hsz'. fold s' in Hsz'.
  assert (d_queue s0 = (it, k) :: drop (S j) (d_queue s)) as Hq0.
  { unfold s0. simpl. by apply drop_S. }
  assert (k ∉ (take j (d_queue s)).*2) as Hnotin.
  { pose proof (wf_keys_NoDup _ Hwf) as Hkd. unfold queue_keys in Hkd.
    rewrite <- (take_drop j (d_queue s)), fmap_app in Hkd.
    apply NoDup_app in Hkd as (_ & Hdisj & _).
    intros Hin. apply (Hdisj k Hin).
    change (drop j (d_queue s)) with (d_queue s0). rewrite Hq0. left. }
  assert (d_map s0 !! k = Some (v, it)) as Hk0.
  { destruct (wf_front _ _ _ _ Hwf0 Hq0) as [v' Hv']. rewrite Hv'.
    assert (d_map s0 !! k = d_map s !! k) as Heq.
    { unfold s0. simpl. by apply lookup_foldr_delete_not_elem_of. }
    unfold v, handle_of. rewrite <- Heq, Hv'. done. }
  pose proof (wf_evicted _ _ _ _ Hwf0 Hk0) as Hwf1. fold s1 in Hwf1.
  assert (d_queue s1 = drop (S j) (d_queue s)) as Hq1.
  { change (d_queue s1) with (queue_without it (d_queue s0)).
    rewrite Hq0. apply queue_without_head.
    rewrite <- Hq0. apply Hwf0. }
  assert (s' = called v s1) as Hs' by by apply evict_front_snoc.
  assert (invoke_callback v s1 = (s', Throw)) as Hinv.
  { unfold throws_on in Hthrows. rewrite Hq in Hthrows.
    destruct (d_postEvictionCallback s) as [cb|] eqn:Hcb; [|done].
    fold v in Hthrows.
    rewrite (invoke_callback_throws v s1 cb).
    - by rewrite Hs', (called_set v s1 cb).
    - done.
    - simpl. by rewrite Hcb. }
  assert (d_postEvictionCallback s ≠ None) as Hcb.
  { unfold throws_on in Hthrows. by destruct (d_postEvictionCallback s). }
  split_and!; try done.
  - by apply evictItem_run.
  - unfold s1. simpl. apply lookup_delete_eq.
  - by apply wf_coupled.
  - intros. by apply insertValuePtrMoveImp_throw.
  - intros. by apply insert_throw.
  - intros. by apply insertPtr_throw.
  - intros. unfold insertBulk. cbn [insertBulk_from].
    by rewrite (bind_Throw _ _ _ _ (insertValuePtrMoveImp_throw _ _ _ _ _ _ _ Henf)).
  - unfold s'. simpl. by destruct (d_postEvictionCallback s).
  - rewrite Hsz'. lia.
  - intros Hmore. rewrite Hsz'. unfold s'. simpl. lia.
  - by apply wf_coupled.
Qed.

(** C10.  A [tryGetValue] whose key is absent returns 1, leaves the caller's
    handle as it was and leaves the cache as it was, under either policy and
    either value of [modifyEvictionQueue]. *)
Theorem C10_tryGetValue_miss (value : ValuePtrType) (key : KEY)
    (modifyEvictionQueue : bool) (s : Cache) :
  d_map s !! key = None →
  tryGetValue value key modifyEvictionQueue s = (s, Ret (1%Z, value)).
Proof. apply tryGetValue_miss. Qed.

(** * Further properties of the member functions *)

(** ** Accessors *)

(** X1.  Whatever calls are made on a cache, [evictionPolicy],
    [lowWatermark] and [highWatermark] return what the constructor was
    given, and leave the cache alone. *)
Theorem X1_accessors_constant (cs : list call) (p : Enum) (lo hi : nat) :
  evictionPolicy (perform_all cs (new_cache p lo hi)) =
    (perform_all cs (new_cache p lo hi), Ret p) ∧
  lowWatermark (perform_all cs (new_cache p lo hi)) =
    (perform_all cs (new_cache p lo hi), Ret lo) ∧
  highWatermark (perform_all cs (new_cache p lo hi)) =
    (perform_all cs (new_cache p lo hi), Ret hi).
Proof.
  assert (inv False (p, lo, hi) (perform_all cs (new_cache p lo hi)))
    as (_ & Hcfg & _).
  { apply perform_all_inv. split_and!; [apply wf_new_cache | done | done]. }
  injection Hcfg as Hp Hl Hh.
  unfold evictionPolicy, lowWatermark, highWatermark, bind, get, ret.
  by rewrite Hp, Hl, Hh.
Qed.

(** ** No undefined behaviour *)


(** ** erase and popFront *)

(** X3.  [erase] of an absent key returns 1 and changes nothing.  [erase]
    of a present key removes that entry and no other: it returns 0 unless
    the callback throws, and either way a lookup of the key then misses,
    the size has dropped by one, the other keys keep their entries and
    their order in the queue. *)
Theorem X3_erase (key : KEY) (s : Cache) :
  wf s →
  match d_map s !! key with
  | None => erase key s = (s, Ret 1%Z)
  | Some _ =>
      ((erase key s).2 = Ret 0%Z ∨ (erase key s).2 = Throw) ∧
      (nothrow s → (erase key s).2 = Ret 0%Z) ∧
      wf (erase key s).1 ∧
      S (size (d_map (erase key s).1)) = size (d_map s) ∧
      (∀ value modifyEvictionQueue,
         tryGetValue value key modifyEvictionQueue (erase key s).1 =
         ((erase key s).1, Ret (1%Z, value))) ∧
      (∀ k, k ≠ key → d_map (erase key s).1 !! k = d_map s !! k) ∧
      queue_keys (erase key s).1 = filter (λ k, k ≠ key) (queue_keys s)
  end.
Proof.
  intros Hwf. destruct (d_map s !! key) as [[v it]|] eqn:Hk; [|by apply erase_miss].
  destruct (erase_hit key v it s Hwf Hk) as [Hst Ho].
  destruct (called_frame v (evicted key it s)) as (Hm & Hq & _).
  split_and!.
  - done.
  - intros Hnt. unfold erase.
    rewrite (bind_Ret _ _ _ _ _ (map_find_run key s)), Hk. simpl.
    unfold bind. rewrite evictItem_run by done.
    by rewrite invoke_callback_nothrow.
  - rewrite Hst. apply wf_called. by eapply wf_evicted.
  - rewrite Hst, Hm. by apply (size_evicted _ _ _ _ Hk).
  - intros value modifyEvictionQueue. apply tryGetValue_miss.
    rewrite Hst, Hm. simpl. apply lookup_delete_eq.
  - intros k Hne. rewrite Hst, Hm. simpl. by apply lookup_delete_ne.
  - unfold queue_keys at 1. rewrite Hst, Hq. simpl.
    apply queue_without_keys; [done|]. by eapply wf_map.
Qed.

(** X4.  [popFront] on an empty cache returns 1 and changes nothing; on a
    cache that is not empty it is [erase] of the key at the front of the
    queue. *)
Theorem X4_popFront (s : Cache) :
  wf s →
  match d_queue s with
  | [] => popFront s = (s, Ret 1%Z)
  | (_, k) :: _ => popFront s = erase k s
  end.
Proof.
  intros Hwf. destruct (d_queue s) as [|[it k] q] eqn:Hq.
  - apply popFront_empty. by rewrite (wf_size _ Hwf), Hq.
  - destruct (find_front_run _ _ _ _ Hwf Hq) as (v & Hv & Hff).
    pose proof (map_size_ne_0_lookup_2 (d_map s) k (mk_is_Some _ _ Hv)) as Hpos.
    unfold popFront, erase. rewrite (bind_Ret _ _ s s s) by done.
    rewrite (proj2 (Nat.ltb_lt _ _)) by lia.
    rewrite (bind_Ret _ _ _ _ _ Hff).
    by rewrite (bind_Ret _ _ _ _ _ (map_find_run k s)), Hv.
Qed.

(** ** The queue proctor *)

Lemma proctor_pop_restores (q added : QueueType) :
  (∀ c, c ∈ added.*1 → queue_last q ≠ Some c) →
  proctor_pop (queue_last q) (reverse (q ++ added)) = Ret (reverse q).
Proof.
  induction added as [|[c k] added IH] using rev_ind; intros Hc.
  - rewrite app_nil_r. apply proctor_pop_unchanged.
  - rewrite app_assoc, reverse_snoc. simpl.
    rewrite decide_False.
    + apply IH. intros c' Hc'. apply Hc. rewrite fmap_app. apply elem_of_app. by left.
    + apply Hc. rewrite fmap_app. apply elem_of_app. right. simpl. left.
Qed.

(** X5.  A proctor that is destroyed without having been released takes the
    queue back to what it was when the proctor was created, whatever number
    of nodes has been appended since, provided none of them sits at the
    address of the node then last. *)
Theorem X5_proctor_restores (s : Cache) (added : QueueType) :
  (∀ c, c ∈ added.*1 → queue_last (d_queue s) ≠ Some c) →
  proctor_destroy (queue_last (d_queue s)) (set_queue (d_queue s ++ added) s) =
  (s, Ret tt).
Proof.
  intros Hc. unfold proctor_destroy. simpl.
  rewrite proctor_pop_restores by done.
  rewrite reverse_involutive. by destruct s.
Qed.

(** ** eraseBulk *)

Lemma eraseBulk_from_fold (keys : list KEY) (count : Z) (s : Cache) :
  wf s → nothrow s →
  let s' := foldl (λ s k, (erase k s).1) s keys in
  eraseBulk_from (int_wrap count) keys s =
    (s', Ret (int_wrap (count + Z.of_nat (size (d_map s) - size (d_map s'))))) ∧
  size (d_map s') ≤ size (d_map s) ∧ wf s' ∧
  d_map s' = foldr delete (d_map s) keys.
Proof.
  revert count s. induction keys as [|key rest IH]; intros count s Hwf Hnt.
  - simpl. split_and!; try done.
    unfold ret. do 3 f_equal. lia.
  - cbn [eraseBulk_from foldl].
    rewrite (bind_Ret _ _ _ _ _ (map_find_run key s)).
    destruct (d_map s !! key) as [[v c]|] eqn:Hk; simpl.
    + destruct (erase_hit key v c s Hwf Hk) as [-> _].
      unfold bind. rewrite evictItem_run by done.
      rewrite invoke_callback_nothrow by exact Hnt.
      pose proof (wf_called v _ (wf_evicted _ _ _ _ Hwf Hk)) as Hwf1.
      pose proof (nothrow_called v key c s Hnt) as Hnt1.
      pose proof (size_evicted _ _ _ _ Hk) as Hsz1.
      destruct (called_frame v (evicted key c s)) as (Hm1 & _).
      rewrite int_add_wrap.
      destruct (IH (count + 1)%Z _ Hwf1 Hnt1) as (Hrun & Hle & Hwf' & Hm).
      rewrite Hm1 in Hrun, Hle, Hm. simpl in Hsz1, Hrun, Hle, Hm.
      split_and!; [|lia|done|].
      * rewrite Hrun. do 3 f_equal. lia.
      * rewrite Hm. apply foldr_delete_commute.
    + rewrite (erase_miss key s Hk). simpl.
      destruct (IH count s Hwf Hnt) as (Hrun & Hle & Hwf' & Hm).
      split_and!; try done.
      rewrite Hm. symmetry. apply delete_id.
      by apply foldr_delete_absent.
Qed.

(** X6.  With a callback that does not throw, [eraseBulk] does what [erase]
    of each key in turn does, and returns the number of entries removed,
    that is the drop in size, as an [int]: the number itself when it is at
    most [INT_MAX], and in general the number wrapped to 32 bits.
    Afterwards every listed key misses and every other key has the entry it
    had.  (Absent and repeated keys count for nothing; an empty range
    returns 0.) *)
Theorem X6_eraseBulk (keys : list KEY) (s : Cache) :
  wf s → nothrow s →
  let s' := foldl (λ s k, (erase k s).1) s keys in
  eraseBulk keys s =
    (s', Ret (int_wrap (Z.of_nat (size (d_map s) - size (d_map s'))))) ∧
  ((Z.of_nat (size (d_map s) - size (d_map s')) ≤ INT_MAX)%Z →
     eraseBulk keys s = (s', Ret (Z.of_nat (size (d_map s) - size (d_map s'))))) ∧
  size (d_map s') ≤ size (d_map s) ∧
  (∀ k value modifyEvictionQueue, k ∈ keys →
     tryGetValue value k modifyEvictionQueue s' = (s', Ret (1%Z, value))) ∧
  (∀ k, k ∉ keys → d_map s' !! k = d_map s !! k).
Proof.
  intros Hwf Hnt s'.
  destruct (eraseBulk_from_fold keys 0 s Hwf Hnt) as (Hrun & Hle & Hwf' & Hm).
  change (int_wrap 0) with 0%Z in Hrun. rewrite Z.add_0_l in Hrun.
  fold s' in Hrun, Hle, Hwf', Hm. split_and!; try done.
  - intros Hmax. unfold eraseBulk. rewrite Hrun. do 2 f_equal.
    apply int_wrap_small. unfold INT_MAX in Hmax. lia.
  - intros k value modifyEvictionQueue Hin. apply tryGetValue_miss.
    rewrite Hm. by apply lookup_foldr_delete.
  - intros k Hin. rewrite Hm. by apply lookup_foldr_delete_not_elem_of.
Qed.

(** ** Inserts below the high watermark *)

Lemma filter_ne_notin {A} `{EqDecision A} (x : A) (l : list A) :
  x ∉ l → filter (λ y, y ≠ x) l = l.
Proof.
  induction l as [|y l IH]; [done|].
  intros [Hne Hl]%not_elem_of_cons.
  rewrite filter_cons_True by congruence. f_equal. auto.
Qed.

Lemma insert_entry_update (key : KEY) (vp : ValuePtrType) (s : Cache) :
  wf s →
  (insert_entry NoFault key vp s).2 =
    Ret (match d_map s !! key with Some _ => false | None => true end) ∧
  fst <$> d_map (insert_entry NoFault key vp s).1 = <[key := vp]> (fst <$> d_map s) ∧
  queue_keys (insert_entry NoFault key vp s).1 =
    filter (λ k, k ≠ key) (queue_keys s) ++ [key].
Proof.
  intros Hwf. unfold insert_entry. simpl.
  destruct (d_map s !! key) as [[v0 it]|] eqn:Hk; simpl.
  - split_and!; [done | by rewrite fmap_insert |].
    unfold queue_keys at 1. simpl. rewrite fmap_app. simpl.
    rewrite (queue_without_keys s it key); [done..|]. by eapply wf_map.
  - split_and!; [done | by rewrite fmap_insert |].
    unfold queue_keys at 1. simpl. rewrite fmap_app. simpl. f_equal.
    symmetry. apply filter_ne_notin. unfold queue_keys.
    intros ([c k] & -> & Hin)%list_elem_of_fmap.
    apply (wf_queue _ Hwf) in Hin as [v Hv]. simpl in Hk. congruence.
Qed.

(** X7.  Below the high watermark a single insert, by any overload, is a map
    update: it returns, the key maps to the handle given, the other keys
    keep their handles, the key is the tail of the queue with the others in
    their old order, the size grows by one exactly when the key was absent,
    and no callback is made. *)
Theorem X7_insert_below_high (c : call) (key : KEY) (vp : ValuePtrType) (s : Cache) :
  inserts c = Some (key, vp) →
  wf s → size (d_map s) < d_highWatermark s →
  ∃ s', perform c s = (s', Ret tt) ∧ wf s' ∧
    fst <$> d_map s' = <[key := vp]> (fst <$> d_map s) ∧
    queue_keys s' = filter (λ k, k ≠ key) (queue_keys s) ++ [key] ∧
    size (d_map s') = match d_map s !! key with
                      | Some _ => size (d_map s)
                      | None => S (size (d_map s))
                      end ∧
    g_calls s' = g_calls s.
Proof.
  intros Hc Hwf Hlt.
  destruct (perform_inserts c key vp s Hc) as (mk & mv & ->).
  pose proof (enforceHighWatermark_quiet s Hwf (burst_below_high s Hlt)) as Henf.
  unfold bind. rewrite (insertValuePtrMoveImp_run _ _ _ _ _ _ _ Hwf Henf).
  destruct (insert_entry_update key vp s Hwf) as (Ho & Hm & Hq).
  destruct (wf_insert_entry NoFault key vp s Hwf) as [Hwf' _].
  destruct (insert_entry_frame NoFault key vp s) as (_ & _ & _ & _ & Hcalls).
  pose proof (size_insert_entry NoFault key vp s) as Hsz. rewrite Ho in Hsz.
  destruct (insert_entry NoFault key vp s) as [s' o]. simpl in *. subst o.
  exists s'. split_and!; try done.
  rewrite Hsz. by destruct (d_map s !! key).
Qed.

(** ** insertBulk *)

Lemma insertBulk_from_seq (move : bool) (data : list KVType) (count : Z) (s : Cache) :
  wf s → nothrow s →
  ∃ n, insertBulk_from move (int_wrap count) [] data s =
         (perform_all ((λ kv, CallInsertPtr move NoFault kv.1 kv.2) <$> data) s,
          Ret (int_wrap (count + Z.of_nat n))) ∧
       n ≤ length data.
Proof.
  revert count s. induction data as [|[key vp] rest IH]; intros count s Hwf Hnt.
  - exists 0. simpl. split; [|lia]. unfold ret. do 3 f_equal. lia.
  - cbn [insertBulk_from fmap list_fmap perform_all foldl]. simpl.
    destruct (stores_after_insert (CallInsertPtr move NoFault key vp) key vp s Hwf Hnt)
      as (Ho & Hwf1 & Hnt1 & _); [done|].
    pose proof (enforceHighWatermark_nothrow s Hwf Hnt) as Henf.
    pose proof (wf_evict_front (burst s) s Hwf) as Hwfb.
    simpl in Ho, Hwf1, Hnt1. unfold insertPtr, bind in Ho, Hwf1, Hnt1 |- *.
    rewrite (insertValuePtrMoveImp_run NoFault key move vp false _ _ Hwfb Henf)
      in Ho, Hwf1, Hnt1 |- *.
    rewrite (insertValuePtrMoveImp_run NoFault key move vp move _ _ Hwfb Henf).
    destruct (insert_entry NoFault key vp (evict_front (burst s) s)) as [s1 [b| |]];
      simpl in *; try done.
    rewrite int_add_wrap.
    destruct (IH (count + (if b then 1 else 0))%Z s1 Hwf1 Hnt1) as (n & Hrun & Hn).
    exists ((if b then 1 else 0) + n). split.
    + unfold perform_all in Hrun. rewrite Hrun. do 3 f_equal. destruct b; lia.
    + simpl length. destruct b; lia.
Qed.

Lemma perform_all_insertPtr_move (moveKey : bool) (data : list KVType) (s : Cache) :
  perform_all ((λ kv, CallInsertPtr moveKey NoFault kv.1 kv.2) <$> data) s =
  perform_all ((λ kv, CallInsertPtr false NoFault kv.1 kv.2) <$> data) s.
Proof.
  revert s. induction data as [|[key vp] rest IH]; intros s; [done|].
  exact (IH _).
Qed.

(** X8.  With a callback that does not throw, [insertBulk] leaves the cache
    as the single inserts of its elements, made in order, leave it -- bursts
    of eviction included -- and returns a count of at most the number of
    elements, as an [int]: the count itself when the range has at most
    [INT_MAX] elements, and in general the count wrapped to 32 bits; the
    copying and the moving overload leave the same cache. *)
Theorem X8_insertBulk_sequence (move : bool) (data : list KVType) (s : Cache) :
  wf s → nothrow s →
  let s' := perform_all ((λ kv, CallInsertPtr false NoFault kv.1 kv.2) <$> data) s in
  ∃ n, n ≤ length data ∧
       insertBulk move [] data s = (s', Ret (int_wrap (Z.of_nat n))) ∧
       ((Z.of_nat (length data) ≤ INT_MAX)%Z →
          insertBulk move [] data s = (s', Ret (Z.of_nat n))).
Proof.
  intros Hwf Hnt s'.
  destruct (insertBulk_from_seq move data 0 s Hwf Hnt) as (n & Hrun & Hn).
  change (int_wrap 0) with 0%Z in Hrun.
  rewrite Z.add_0_l, perform_all_insertPtr_move in Hrun. fold s' in Hrun.
  exists n. split_and!; try done.
  intros Hmax. unfold insertBulk. rewrite Hrun. do 2 f_equal.
  apply int_wrap_small. unfold INT_MAX in Hmax. lia.
Qed.

Lemma insertBulk_from_below_high (move : bool) (data : list KVType) (count : Z)
    (s : Cache) :
  wf s → size (d_map s) + length data ≤ d_highWatermark s →
  ∃ s', insertBulk_from move (int_wrap count) [] data s =
          (s', Ret (int_wrap (count + Z.of_nat (size (d_map s') - size (d_map s))))) ∧
    size (d_map s) ≤ size (d_map s') ≤ size (d_map s) + length data ∧ wf s' ∧
    fst <$> d_map s' = list_to_map (reverse data) ∪ (fst <$> d_map s) ∧
    g_calls s' = g_calls s.
Proof.
  revert count s. induction data as [|[key vp] rest IH]; intros count s Hwf Hle.
  - exists s. simpl. split_and!; try done; try lia.
    + unfold ret. do 3 f_equal. lia.
    + by rewrite (left_id_L ∅ (∪)).
  - simpl in Hle. cbn [insertBulk_from]. simpl.
    assert (size (d_map s) < d_highWatermark s) as Hlt by lia.
    pose proof (enforceHighWatermark_quiet s Hwf (burst_below_high s Hlt)) as Henf.
    unfold bind. rewrite (insertValuePtrMoveImp_run _ _ _ _ _ _ _ Hwf Henf).
    destruct (insert_entry_update key vp s Hwf) as (Ho & Hm & _).
    destruct (wf_insert_entry NoFault key vp s Hwf) as [Hwf1 _].
    destruct (insert_entry_frame NoFault key vp s) as (_ & _ & Hh & _ & Hcalls).
    pose proof (size_insert_entry NoFault key vp s) as Hsz. rewrite Ho in Hsz.
    destruct (insert_entry NoFault key vp s) as [s1 o]. simpl in *. subst o.
    rewrite int_add_wrap.
    destruct (IH (count + (if match d_map s !! key with
                               | Some _ => false | None => true end
                            then 1 else 0))%Z s1 Hwf1) as (s' & Hrun & Hmono & Hwf' & Hm' & Hc').
    { rewrite Hh, Hsz. destruct (d_map s !! key); lia. }
    exists s'. split_and!.
    + rewrite Hrun. do 3 f_equal. rewrite Hsz in Hmono |- *.
      destruct (d_map s !! key); lia.
    + rewrite Hsz in Hmono. destruct (d_map s !! key); lia.
    + rewrite Hsz in Hmono. destruct (d_map s !! key); lia.
    + done.
    + rewrite Hm', Hm, reverse_cons, list_to_map_app. simpl.
      rewrite <- (assoc_L (∪)). f_equal.
      by rewrite <- insert_union_l, (left_id_L ∅ (∪)).
    + by rewrite Hc', Hcalls.
Qed.

(** X9.  An [insertBulk] that cannot reach the high watermark (size plus
    number of elements at most the high watermark) evicts nothing and makes
    no callback; the cache then holds, over what it held, the last handle
    given for each key of the range; the count returned is the growth in
    size, the number of distinct new keys, as an [int]: the number itself
    when the range has at most [INT_MAX] elements, and in general the
    number wrapped to 32 bits; and a lookup of a key of the range returns
    the last handle given for it. *)
Theorem X9_insertBulk_below_high (move : bool) (data : list KVType) (s : Cache) :
  wf s → size (d_map s) + length data ≤ d_highWatermark s →
  ∃ s', insertBulk move [] data s =
          (s', Ret (int_wrap (Z.of_nat (size (d_map s') - size (d_map s))))) ∧
    ((Z.of_nat (length data) ≤ INT_MAX)%Z →
       insertBulk move [] data s =
         (s', Ret (Z.of_nat (size (d_map s') - size (d_map s))))) ∧
    wf s' ∧
    fst <$> d_map s' = list_to_map (reverse data) ∪ (fst <$> d_map s) ∧
    g_calls s' = g_calls s ∧
    (∀ k vp value modifyEvictionQueue,
       (list_to_map (reverse data) : gmap KEY ValuePtrType) !! k = Some vp →
       (tryGetValue value k modifyEvictionQueue s').2 = Ret (0%Z, vp)).
Proof.
  intros Hwf Hle.
  destruct (insertBulk_from_below_high move data 0 s Hwf Hle)
    as (s' & Hrun & Hsz & Hwf' & Hm & Hc).
  change (int_wrap 0) with 0%Z in Hrun. rewrite Z.add_0_l in Hrun.
  exists s'. split_and!; try done.
  - intros Hmax. unfold insertBulk. rewrite Hrun. do 2 f_equal.
    apply int_wrap_small. unfold INT_MAX in Hmax. lia.
  - intros k vp value modifyEvictionQueue Hk.
    assert ((fst <$> d_map s') !! k = Some vp) as Hk'.
    { rewrite Hm. by apply lookup_union_Some_l. }
    rewrite lookup_fmap in Hk'.
    destruct (d_map s' !! k) as [[vp' it]|] eqn:Hs'; simpl in Hk'; [|done].
    injection Hk' as ->.
    by rewrite (tryGetValue_hit value vp k it _ s').
Qed.

(** ** visit *)

Lemma visit_from_spec (visitor : KEY → VALUE → bool) (m : gmap KEY MapValue)
    (q : QueueType) :
  (∀ c k, (c, k) ∈ q → ∃ v it, m !! k = Some (Some v, it)) →
  ∃ l, visit_from visitor q m = Ret l ∧
    l.*1 `prefix_of` q.*2 ∧
    (∀ k v, (k, v) ∈ l → ∃ it, m !! k = Some (Some v, it)) ∧
    (∀ i k v, l !! i = Some (k, v) → S i < length l → visitor k v = true) ∧
    (length l < length q → ∃ k v, last l = Some (k, v) ∧ visitor k v = false) ∧
    ((∀ k v, visitor k v = true) → l.*1 = q.*2).
Proof.
  induction q as [|[c key] rest IH]; intros Hq.
  - exists []. split_and!; try done.
    + intros k v Hin. by apply elem_of_nil in Hin.
    + simpl. lia.
  - destruct (Hq c key) as (v & it & Hk); [left|].
    destruct IH as (l' & Hrun & Hpre & Hin & Hidx & Hlast & Hall).
    { intros c' k' Hin. apply (Hq c' k'). by right. }
    cbn [visit_from]. rewrite Hk.
    destruct (visitor key v) eqn:Hvis.
    + rewrite Hrun. exists ((key, v) :: l'). split_and!; try done.
      * simpl. by apply prefix_cons.
      * intros k' v' [[= -> ->]|Hin']%elem_of_cons; eauto.
      * intros [|i] k' v'; simpl.
        -- by intros [= <- <-] _.
        -- intros Hi Hlen. apply (Hidx i); [done | lia].
      * simpl. intros Hlen. destruct Hlast as (k' & v' & Hl' & Hf); [lia|].
        exists k', v'. split; [|done].
        destruct l' as [|x l']; [done|]. by rewrite last_cons_cons.
      * intros Htrue. simpl. f_equal. by apply Hall.
    + exists [(key, v)]. split_and!; try done.
      * simpl. apply prefix_cons, prefix_nil.
      * intros k' v' [= -> ->]%list_elem_of_singleton. eauto.
      * intros i k' v' _. simpl. lia.
      * intros _. by exists key, v.
      * intros Htrue. by rewrite Htrue in Hvis.
Qed.

(** X10.  On a well-formed cache without null handles [visit] leaves the
    cache as it is and calls the visitor on entries of the cache in the
    order of the eviction queue, front first: the keys visited are a
    prefix of the queue's keys, each with the handle's value; the visitor
    returned [true] on every entry but the last visited, and [false] on the
    last one if the visit stopped short.  A visitor that always returns
    [true] sees every entry once, as many as [size()] reports. *)
Theorem X10_visit (visitor : KEY → VALUE → bool) (s : Cache) :
  wf s → no_null s →
  ∃ l, visit visitor s = (s, Ret l) ∧
    l.*1 `prefix_of` queue_keys s ∧
    (∀ k v, (k, v) ∈ l → ∃ it, d_map s !! k = Some (Some v, it)) ∧
    (∀ i k v, l !! i = Some (k, v) → S i < length l → visitor k v = true) ∧
    (length l < size (d_map s) →
       ∃ k v, last l = Some (k, v) ∧ visitor k v = false) ∧
    ((∀ k v, visitor k v = true) →
       l.*1 = queue_keys s ∧ size_ s = (s, Ret (length l))).
Proof.
  intros Hwf Hnn.
  destruct (visit_from_spec visitor (d_map s) (d_queue s))
    as (l & Hrun & Hpre & Hin & Hidx & Hlast & Hall).
  { intros c k Hq. apply (wf_queue _ Hwf) in Hq as [[v|] Hv]; [eauto|].
    by destruct (Hnn k c). }
  exists l. unfold visit. rewrite Hrun. split_and!; try done.
  - by rewrite (wf_size _ Hwf).
  - intros Htrue. pose proof (Hall Htrue) as Heq. split; [done|].
    unfold size_, bind, get, ret. do 2 f_equal.
    rewrite (wf_size _ Hwf).
    by rewrite <- (length_fmap fst l), Heq, length_fmap.
Qed.

(** ** What the next insert evicts *)

Lemma lookup_evict_front_tail (n : nat) (s : Cache) (it : node) (key : KEY) :
  wf s → last (d_queue s) = Some (it, key) → n < size (d_map s) →
  d_map (evict_front n s) !! key = d_map s !! key.
Proof.
  intros Hwf [q' Hq]%last_Some Hn. simpl.
  apply lookup_foldr_delete_not_elem_of.
  pose proof (wf_keys_NoDup _ Hwf) as Hnd. unfold queue_keys in Hnd.
  rewrite (wf_size _ Hwf) in Hn. rewrite Hq in Hnd, Hn |- *.
  rewrite length_app in Hn. simpl in Hn.
  rewrite take_app_le by lia.
  rewrite fmap_app in Hnd. apply NoDup_app in Hnd as (_ & Hnot & _).
  intros Hin. apply (Hnot key); [|simpl; left].
  eapply elem_of_sublist; [exact Hin|]. apply fmap_sublist, sublist_take.
Qed.

Lemma lookup_insert_entry_ne (ft : fault) (key key' : KEY) (vp : ValuePtrType)
    (s : Cache) :
  key' ≠ key →
  d_map (insert_entry ft key vp s).1 !! key' = d_map s !! key'.
Proof.
  intros Hne. unfold insert_entry. destruct (decide (ft = ThrowFind)); [done|].
  destruct (d_map s !! key) as [[v0 c]|]; simpl.
  - by rewrite lookup_insert_ne.
  - repeat case_decide; simpl; try done. by rewrite lookup_insert_ne.
Qed.

(** The entry at the tail of the queue outlives an insert of another key
    whenever the burst stops short of emptying the cache. *)
Lemma tail_survives_insert (c : call) (key key2 : KEY) (v vp : ValuePtrType)
    (it : node) (s : Cache) :
  wf s → nothrow s → inserts c = Some (key2, vp) → key2 ≠ key →
  last (d_queue s) = Some (it, key) → d_map s !! key = Some (v, it) →
  2 ≤ d_lowWatermark s →
  d_map (perform c s).1 !! key = Some (v, it).
Proof.
  intros Hwf Hnt Hc Hne Hlast Hk Hlow.
  destruct (perform_inserts c key2 vp s Hc) as (mk & mv & ->).
  pose proof (enforceHighWatermark_nothrow s Hwf Hnt) as Henf.
  pose proof (wf_evict_front (burst s) s Hwf) as Hwf1.
  unfold bind. rewrite (insertValuePtrMoveImp_run _ _ _ _ _ _ _ Hwf1 Henf).
  assert (d_map (insert_entry NoFault key2 vp (evict_front (burst s) s)).1 !! key
          = Some (v, it)) as Hres.
  { rewrite lookup_insert_entry_ne by done.
    rewrite (lookup_evict_front_tail _ _ it key); [done..|].
    pose proof (map_size_ne_0_lookup_2 (d_map s) key (mk_is_Some _ _ Hk)).
    unfold burst. destruct (_ <? _); lia. }
  by destruct (insert_entry NoFault key2 vp (evict_front (burst s) s)) as [s' [b| |]].
Qed.

(** X11.  Under LRU, with a low watermark of at least 2 and a callback that
    does not throw, a key that has just been looked up (with
    [modifyEvictionQueue]) is not evicted by the next insert of another
    key: the insert returns and a lookup of the key still returns 0 with
    its handle. *)
Theorem X11_lru_hit_outlives_insert (c : call) (key key2 : KEY)
    (v vp value : ValuePtrType) (it : node) (s : Cache) :
  wf s → nothrow s → d_evictionPolicy s = e_LRU → 2 ≤ d_lowWatermark s →
  d_map s !! key = Some (v, it) →
  inserts c = Some (key2, vp) → key2 ≠ key →
  (perform c (tryGetValue value key true s).1).2 = Ret tt ∧
  ∀ value' modifyEvictionQueue,
    (tryGetValue value' key modifyEvictionQueue
       (perform c (tryGetValue value key true s).1).1).2 = Ret (0%Z, v).
Proof.
  intros Hwf Hnt Hlru Hlow Hk Hc Hne.
  rewrite (tryGetValue_hit value v key it true s Hwf Hk).
  unfold writeLock. rewrite bool_decide_eq_true_2 by done. simpl.
  assert (wf (spliced it key s)) as Hwf1.
  { rewrite (spliced_replaced _ _ _ _ Hk). by eapply wf_replaced. }
  assert (nothrow (spliced it key s)) as Hnt1 by exact Hnt.
  destruct (stores_after_insert c key2 vp _ Hwf1 Hnt1 Hc) as (Ho & Hwf2 & _).
  split; [done|]. intros value' modifyEvictionQueue.
  rewrite (tryGetValue_hit value' v key it _ _ Hwf2); [done|].
  apply (tail_survives_insert c key key2 v vp it); try done.
  simpl. apply last_snoc.
Qed.

(** X12.  Equal watermarks give a fixed maximum size: when the size equals
    both watermarks, the insert of a new key (callback not throwing) evicts
    exactly the entry at the front of the queue, hands its handle to the
    callback if one is set, and adds the key at the tail; the size is what
    it was. *)
Theorem X12_equal_watermarks_cap (c : call) (key k : KEY) (vp : ValuePtrType)
    (it : node) (q : QueueType) (s : Cache) :
  inserts c = Some (key, vp) →
  wf s → nothrow s →
  1 ≤ d_lowWatermark s → d_lowWatermark s = d_highWatermark s →
  size (d_map s) = d_highWatermark s →
  d_queue s = (it, k) :: q → d_map s !! key = None →
  ∃ s', perform c s = (s', Ret tt) ∧
    size (d_map s') = size (d_map s) ∧
    d_map s' !! k = None ∧
    (∃ it', d_map s' !! key = Some (vp, it')) ∧
    (∀ k', k' ≠ k → k' ≠ key → d_map s' !! k' = d_map s !! k') ∧
    queue_keys s' = q.*2 ++ [key] ∧
    g_calls s' = g_calls s ++ match d_postEvictionCallback s with
                              | Some _ => [handle_of (d_map s) k]
                              | None => []
                              end.
Proof.
  intros Hc Hwf Hnt Hlo Heq Hsz Hq Hkey.
  destruct (wf_front _ _ _ _ Hwf Hq) as [v Hk].
  assert (key ≠ k) as Hne by (intros ->; congruence).
  assert (burst s = 1) as Hb.
  { unfold burst. rewrite (proj2 (Nat.ltb_ge _ _)) by lia. lia. }
  destruct (perform_inserts c key vp s Hc) as (mk & mv & ->).
  pose proof (enforceHighWatermark_nothrow s Hwf Hnt) as Henf. rewrite Hb in Henf.
  pose proof (wf_evict_front 1 s Hwf) as Hwf1.
  unfold bind. rewrite (insertValuePtrMoveImp_run _ _ _ _ _ _ _ Hwf1 Henf).
  assert (d_map (evict_front 1 s) = delete k (d_map s)) as Hm1.
  { simpl. by rewrite Hq. }
  assert (d_queue (evict_front 1 s) = q) as Hq1.
  { simpl. by rewrite Hq. }
  assert (g_calls (evict_front 1 s) =
          g_calls s ++ match d_postEvictionCallback s with
                       | Some _ => [handle_of (d_map s) k]
                       | None => []
                       end) as Hc1.
  { simpl. rewrite Hq. by destruct (d_postEvictionCallback s). }
  assert (d_map (evict_front 1 s) !! key = None) as Hkey1.
  { rewrite Hm1. by rewrite lookup_delete_ne. }
  remember (evict_front 1 s) as s1 eqn:Hs1. clear Hs1 Henf.
  assert (insert_entry NoFault key vp s1 = (added key vp s1, Ret true)) as ->.
  { unfold insert_entry. simpl. by rewrite Hkey1. }
  exists (added key vp s1). unfold queue_keys. simpl.
  rewrite Hm1, Hq1, Hc1. split_and!; try done.
  - rewrite map_size_insert, lookup_delete_ne by done. rewrite Hkey.
    rewrite map_size_delete, Hk. simpl.
    pose proof (map_size_ne_0_lookup_2 (d_map s) k (mk_is_Some _ _ Hk)). lia.
  - rewrite lookup_insert_ne by done. apply lookup_delete_eq.
  - eexists. apply lookup_insert_eq.
  - intros k' Hk1 Hk2. rewrite lookup_insert_ne by done.
    by rewrite lookup_delete_ne.
  - by rewrite fmap_app.
Qed.

(** ** Where exceptions come from *)

Lemma evict_found_returns {A} (k : KEY) (v : ValuePtrType) (c : node) (a : A)
    (s : Cache) :
  wf s → nothrow s → d_map s !! k = Some (v, c) →
  (evictItem (k, (v, c)) >> ret a) s = (called v (evicted k c s), Ret a).
Proof.
  intros Hwf Hnt Hk. unfold bind. rewrite evictItem_run by done.
  by rewrite invoke_callback_nothrow.
Qed.

Lemma erase_returns (key : KEY) (s : Cache) :
  wf s → nothrow s → ∃ rc, (erase key s).2 = Ret rc.
Proof.
  intros Hwf Hnt. unfold erase.
  rewrite (bind_Ret _ _ _ _ _ (map_find_run key s)).
  destruct (d_map s !! key) as [[v c]|] eqn:Hk; simpl; [|by eexists].
  rewrite evict_found_returns by done. by eexists.
Qed.

Lemma popFront_returns (s : Cache) :
  wf s → nothrow s → ∃ rc, (popFront s).2 = Ret rc.
Proof.
  intros Hwf Hnt. unfold popFront. rewrite (bind_Ret _ _ s s s) by done.
  destruct (0 <? size (d_map s)) eqn:Hpos; [|by eexists].
  apply Nat.ltb_lt in Hpos.
  destruct (wf_nonempty _ Hwf Hpos) as (c & k & q & Hq).
  destruct (find_front_run _ _ _ _ Hwf Hq) as (v & Hv & Hff).
  rewrite (bind_Ret _ _ _ _ _ Hff), evict_found_returns by done. by eexists.
Qed.

Lemma insertBulk_from_nofault (move : bool) (data : list KVType)
    (fts : list fault) (count : Z) (s : Cache) :
  Forall (λ ft, ft = NoFault) fts →
  insertBulk_from move count fts data s = insertBulk_from move count [] data s.
Proof.
  revert fts count s. induction data as [|[key vp] rest IH];
    intros fts count s Hfts; [done|].
  cbn [insertBulk_from].
  assert (default NoFault (head fts) = NoFault) as ->.
  { destruct Hfts as [|ft fts -> _]; done. }
  simpl. unfold bind.
  destruct (insertValuePtrMoveImp NoFault key move vp move s) as [s1 [b| |]];
    [|done|done].
  apply IH. destruct Hfts; [constructor | done].
Qed.

(** X13.  No member function throws of itself: on a well-formed cache whose
    callback does not throw (or that has none), a call other than [visit]
    into which no exception is injected returns. *)
Theorem X13_calls_return (c : call) (s : Cache) :
  wf s → nothrow s → faultless c → (∀ visitor, c ≠ CallVisit visitor) →
  (perform c s).2 = Ret tt.
Proof.
  intros Hwf Hnt Hf Hc.
  destruct c as [|key|keys|mk mv ft key value|mk ft key vp|move fts data| |cb
                 |value key modifyEvictionQueue| |visitor]; simpl in Hf |- *.
  - done.
  - destruct (erase_returns key s Hwf Hnt) as [rc Hrc]. unfold bind.
    by destruct (erase key s) as [s' o]; simpl in Hrc; subst o.
  - destruct (eraseBulk_from_fold keys 0 s Hwf Hnt) as (Hrun & _).
    change (int_wrap 0) with 0%Z in Hrun.
    unfold bind, eraseBulk. by rewrite Hrun.
  - subst ft. by apply (stores_after_insert (CallInsert mk mv NoFault key value)
                          key (Some value) s).
  - subst ft. by apply (stores_after_insert (CallInsertPtr mk NoFault key vp) key vp s).
  - destruct (insertBulk_from_seq move data 0 s Hwf Hnt) as (n & Hrun & _).
    change (int_wrap 0) with 0%Z in Hrun.
    unfold bind, insertBulk. by rewrite insertBulk_from_nofault, Hrun.
  - destruct (popFront_returns s Hwf Hnt) as [rc Hrc]. unfold bind.
    by destruct (popFront s) as [s' o]; simpl in Hrc; subst o.
  - done.
  - unfold bind. destruct (d_map s !! key) as [[v it]|] eqn:Hk.
    + by rewrite (tryGetValue_hit value v key it _ s).
    + by rewrite tryGetValue_miss.
  - done.
  - by destruct (Hc visitor).
Qed.

(** X14.  Below the high watermark an insert that leaves by an exception
    leaves the map, the queue and the callback trace as they were, whatever
    threw: the value's allocation, the lookup, the append to the queue or
    the insertion into the map; when the insertion into the map of a new
    key throws, the key appended to the queue has been taken off again. *)
Theorem X14_insert_throw_below_high (s : Cache) :
  wf s → size (d_map s) < d_highWatermark s →
  (∀ moveKey moveValue ft key value,
     (insert moveKey moveValue ft key value s).2 = Throw →
     d_map (insert moveKey moveValue ft key value s).1 = d_map s ∧
     d_queue (insert moveKey moveValue ft key value s).1 = d_queue s ∧
     g_calls (insert moveKey moveValue ft key value s).1 = g_calls s) ∧
  (∀ moveKey ft key valuePtr,
     (insertPtr moveKey ft key valuePtr s).2 = Throw →
     d_map (insertPtr moveKey ft key valuePtr s).1 = d_map s ∧
     d_queue (insertPtr moveKey ft key valuePtr s).1 = d_queue s ∧
     g_calls (insertPtr moveKey ft key valuePtr s).1 = g_calls s) ∧
  (∀ moveKey key valuePtr, d_map s !! key = None →
     insertPtr moveKey ThrowEmplace key valuePtr s =
     (set_fresh (S (g_fresh s)) s, Throw)).
Proof.
  intros Hwf Hlt.
  pose proof (enforceHighWatermark_quiet s Hwf (burst_below_high s Hlt)) as Henf.
  assert (∀ ft key vp,
            (bind (insert_entry ft key vp) (λ _, ret tt) s).2 = Throw →
            d_map (bind (insert_entry ft key vp) (λ _, ret tt) s).1 = d_map s ∧
            d_queue (bind (insert_entry ft key vp) (λ _, ret tt) s).1 = d_queue s ∧
            g_calls (bind (insert_entry ft key vp) (λ _, ret tt) s).1 = g_calls s)
    as Hentry.
  { intros ft key vp. unfold bind.
    pose proof (insert_entry_throws ft key vp s) as Hthrows.
    destruct (insert_entry_frame ft key vp s) as (_ & _ & _ & _ & Hcalls).
    destruct (insert_entry ft key vp s) as [s' [b| |]]; simpl in *; try done.
    intros _. by destruct Hthrows. }
  split_and!.
  - intros mk mv ft key value.
    destruct (decide (ft = ThrowPopulate)) as [->|Hft]; [done|].
    rewrite (insert_run _ _ _ _ _ _ _ Hwf Henf Hft). apply Hentry.
  - intros mk ft key vp. rewrite (insertPtr_run _ _ _ _ _ _ Hwf Henf). apply Hentry.
  - intros mk key vp Hk. rewrite (insertPtr_run _ _ _ _ _ _ Hwf Henf).
    unfold bind, insert_entry. simpl. by rewrite Hk.
Qed.

(** ** setPostEvictionCallback *)

(** X15.  [setPostEvictionCallback] makes no call and leaves the entries
    alone, and the function it installs is the one the next removal uses:
    an [erase] of a present key right after it hands the entry's handle to
    the new function and throws exactly when that function does; after an
    empty function object is installed the [erase] makes no call and
    returns 0. *)
Theorem X15_callback_replaced (cb : PostEvictionCallback) (key : KEY)
    (v : ValuePtrType) (it : node) (s : Cache) :
  wf s → d_map s !! key = Some (v, it) →
  ∃ s0, setPostEvictionCallback cb s = (s0, Ret tt) ∧
    d_map s0 = d_map s ∧ d_queue s0 = d_queue s ∧ g_calls s0 = g_calls s ∧
    d_map (erase key s0).1 = delete key (d_map s) ∧
    (erase key s0).2 = match cb with
                       | Some f => if f (g_calls s) v then Throw else Ret 0%Z
                       | None => Ret 0%Z
                       end ∧
    g_calls (erase key s0).1 = match cb with
                               | Some _ => g_calls s ++ [v]
                               | None => g_calls s
                               end.
Proof.
  intros Hwf Hk. exists (set_callback cb s).
  pose proof (wf_set_callback cb s Hwf) as Hwf0.
  assert (d_map (set_callback cb s) !! key = Some (v, it)) as Hk0 by done.
  split_and!; try done.
  - destruct (erase_hit key v it _ Hwf0 Hk0) as [-> _].
    by destruct (called_frame v (evicted key it (set_callback cb s))) as (-> & _).
  - unfold erase.
    rewrite (bind_Ret _ _ _ _ _ (map_find_run key (set_callback cb s))), Hk0.
    simpl. unfold bind. rewrite evictItem_run by done.
    unfold invoke_callback. simpl. destruct cb as [f|]; [|done].
    by destruct (f (g_calls s) v).
  - destruct (erase_hit key v it _ Hwf0 Hk0) as [-> _].
    unfold called. simpl. by destruct cb.
Qed.

End Cache.

(** * The properties at concrete caches

    Keys and values are natural numbers; a cache is built by calls on a new
    cache, so it is well formed by [wf_perform_all]. *)

Lemma C1_high_watermark_burst_witness :
  let s0 := perform_all [CallSetPostEvictionCallback (Some (λ _ _, false));
                         CallInsert false false NoFault 0 10;
                         CallInsert false false NoFault 1 11;
                         CallInsert false false NoFault 2 12]
                        (new_cache e_FIFO 2 3) in
  ∃ s1, enforceHighWatermark s0 = (s1, Ret tt) ∧
        queue_keys s1 = [2] ∧ g_calls s1 = [Some 10; Some 11] ∧
        size (d_map s1) < d_lowWatermark s1.
Proof.
  intros s0.
  destruct (C1_high_watermark_burst s0) as (s1 & Henf & Hq & Hm & Hc & Hlt & _).
  - apply wf_perform_all.
  - vm_compute. lia.
  - vm_compute. lia.
  - intros cb Hcb h v. vm_compute in Hcb. by injection Hcb as <-.
  - exists s1. split; [exact Henf|]. split; [|split; [|exact Hlt]].
    + unfold queue_keys. rewrite Hq. reflexivity.
    + rewrite Hc. reflexivity.
Defined.

Lemma C2_index_queue_coupled_witness :
  let s0 := perform_all [CallInsert false false NoFault 0 10]
                        (new_cache e_LRU 1 1) in
  let s' := (perform (CallInsert false false ThrowEmplace 1 11) s0).1 in
  wf s' ∧ size (d_map s') = length (d_queue s').
Proof.
  intros s0 s'.
  destruct (C2_index_queue_coupled (CallInsert false false ThrowEmplace 1 11) s0)
    as (Hwf & Hsz & _).
  - apply wf_perform_all.
  - split; [exact Hwf | exact Hsz].
Defined.

Lemma C3_counterexample :
  let s0 := perform_all [CallInsert false false NoFault 0 10;
                         CallInsert false false NoFault 1 11]
                        (new_cache e_FIFO 1 2) in
  let r := insertPtr false NoFault 1 (Some 12) s0 in
  d_map s0 !! 1 = Some (Some 11, 1) ∧ size (d_map s0) = 2 ∧
  r.2 = Ret tt ∧ size (d_map r.1) = 1 ∧ size (d_map r.1) ≠ size (d_map s0) ∧
  d_map r.1 !! 0 = None ∧ queue_keys r.1 = [1].
Proof. vm_compute. by split_and!. Qed.

Lemma C3_replacement_below_high_witness :
  let s0 := perform_all [CallInsert false false NoFault 0 10;
                         CallInsert false false NoFault 1 11]
                        (new_cache e_FIFO 2 3) in
  ∃ s', insertValuePtrMoveImp NoFault 0 false (Some 12) false s0 = (s', Ret false) ∧
        size (d_map s') = size (d_map s0) ∧ g_calls s' = g_calls s0 ∧
        queue_keys s' = [1; 0].
Proof.
  intros s0.
  destruct (C3_replacement_below_high NoFault 0 false (Some 12) (Some 10) false 0 s0)
    as (s' & Hrun & Hm & Hq & Hsz & _ & _ & Hc).
  - apply wf_perform_all.
  - vm_compute. lia.
  - reflexivity.
  - discriminate.
  - exists s'. split; [exact Hrun|]. split; [exact Hsz|]. split; [exact Hc|].
    unfold queue_keys. rewrite Hq. reflexivity.
Defined.

Lemma C4_counterexample :
  let r := insert false false NoFault 0 10 (new_cache e_LRU 1 1) in
  r.2 = Ret tt ∧ size (d_map r.1) = 1 ∧ d_highWatermark r.1 = 1 ∧
  ¬ size (d_map r.1) < d_highWatermark r.1.
Proof. vm_compute. split_and!; [done..|lia]. Qed.

Lemma C4_size_within_high_witness :
  let s0 := perform_all [CallInsert false false NoFault 0 10;
                         CallInsert false false NoFault 1 11]
                        (new_cache e_LRU 2 3) in
  let s' := (perform (CallInsert false false NoFault 2 12) s0).1 in
  size (d_map s') ≤ 3 ∧ size (d_map s') = 3.
Proof.
  intros s0 s'.
  destruct (C4_size_within_high (CallInsert false false NoFault 2 12) s0)
    as (Hsz & _).
  - apply wf_perform_all.
  - vm_compute. lia.
  - vm_compute. lia.
  - split; [exact Hsz | reflexivity].
Defined.

Lemma C5_tryGetValue_hit_witness :
  let s0 := perform_all [CallInsert false false NoFault 0 10;
                         CallInsert false false NoFault 1 11;
                         CallInsert false false NoFault 2 12]
                        (new_cache e_LRU 6 7) in
  ∃ s', tryGetValue None 0 true s0 = (s', Ret (0%Z, Some 10)) ∧
        queue_keys s' = [1; 2; 0].
Proof.
  intros s0.
  destruct (C5_tryGetValue_hit None (Some 10) 0 0 true s0) as (s' & Hrun & Hlru & _).
  - apply wf_perform_all.
  - reflexivity.
  - exists s'. split; [exact Hrun|].
    destruct Hlru as (_ & -> & _); reflexivity.
Defined.

Lemma C6_insert_then_lookup_witness :
  let s := perform_all [CallSetPostEvictionCallback (Some (λ _ _, true));
                        CallInsert false false NoFault 5 50]
                       (new_cache_unbounded 1000) in
  let s1 := (perform (CallInsert false false NoFault 0 10) s).1 in
  let s2 := (perform (CallInsertPtr true NoFault 0 (Some 11)) s1).1 in
  (perform (CallInsertPtr true NoFault 0 (Some 11)) s1).2 = Ret tt ∧
  (tryGetValue None 0 true s1).2 = Ret (0%Z, Some 10) ∧
  (tryGetValue None 0 true s2).2 = Ret (0%Z, Some 11) ∧
  (∃ it, d_map s1 !! 0 = Some (Some 10, it) ∧ s2 = replaced 0 (Some 11) it s1) ∧
  size (d_map s2) = size (d_map s1) ∧ g_calls s2 = [] ∧
  length (filter (λ k, k = 0) (queue_keys s2)) = 1 ∧
  last (queue_keys s2) = Some 0.
Proof.
  intros s s1 s2.
  destruct (C6_insert_then_lookup (CallInsert false false NoFault 0 10)
              (CallInsertPtr true NoFault 0 (Some 11)) 0 (Some 10) (Some 11) None true s)
    as (Hmain & _).
  - apply wf_perform_all.
  - reflexivity.
  - reflexivity.
  - destruct Hmain as (_ & Ho2 & Hg1 & Hg2 & Hrep & Hsz & Hc & Hone & Hlast).
    + vm_compute. lia.
    + vm_compute. lia.
    + split; [exact Ho2|]. split; [exact Hg1|]. split; [exact Hg2|].
      split; [exact Hrep|]. split; [exact Hsz|]. split; [exact Hc|].
      split; [exact Hone | exact Hlast].
Defined.

(** C7 as the specification words it fails at the high watermark.  With
    low and high watermark 2 and keys 0 and 1 present, an insert of key 1
    takes the replace branch (it returns [false]) after its burst has
    evicted key 0 and handed that entry to the callback.  With low and high
    watermark 1 and key 0 present, an insert of key 0 hands the callback the
    very handle it replaces. *)
Lemma C7_counterexample :
  let s0 := perform_all [CallSetPostEvictionCallback (Some (λ _ _, false));
                         CallInsert false false NoFault 0 10;
                         CallInsert false false NoFault 1 11]
                        (new_cache e_FIFO 2 2) in
  let r := insertValuePtrMoveImp NoFault 1 false (Some 12) false s0 in
  let t0 := perform_all [CallSetPostEvictionCallback (Some (λ _ _, false));
                         CallInsert false false NoFault 0 10]
                        (new_cache e_LRU 1 1) in
  let u := insertPtr false NoFault 0 (Some 12) t0 in
  (d_map s0 !! 1 = Some (Some 11, 1) ∧ g_calls s0 = [] ∧
   r.2 = Ret false ∧ d_map r.1 !! 1 = Some (Some 12, 1) ∧
   g_calls r.1 = [Some 10] ∧ g_calls r.1 ≠ g_calls s0) ∧
  (d_map t0 !! 0 = Some (Some 10, 0) ∧ g_calls t0 = [] ∧
   u.2 = Ret tt ∧ d_map u.1 !! 0 = Some (Some 12, 1) ∧ size (d_map u.1) = 1 ∧
   g_calls u.1 = [Some 10] ∧ g_calls u.1 ≠ g_calls t0).
Proof. vm_compute. by split_and!. Qed.

Lemma C7_callback_once_per_departure_witness :
  let s0 := perform_all [CallSetPostEvictionCallback (Some (λ _ _, false));
                         CallInsert false false NoFault 0 10;
                         CallInsert false false NoFault 1 11]
                        (new_cache e_LRU 2 3) in
  let s1 := perform_all [CallSetPostEvictionCallback (Some (λ _ _, false));
                         CallInsert false false NoFault 0 10;
                         CallInsert false false NoFault 1 11;
                         CallInsert false false NoFault 2 12]
                        (new_cache e_LRU 2 3) in
  (g_calls (enforceHighWatermark s1).1 = [Some 10; Some 11] ∧
   g_calls (insertValuePtrMoveImp NoFault 3 false (Some 13) false s1).1 =
     [Some 10; Some 11]) ∧
  g_calls (erase 1 s0).1 = [Some 11] ∧
  g_calls (popFront s0).1 = [Some 10] ∧
  (∃ ks s', eraseBulk [1; 7; 1; 0] s0 = (s', Ret (int_wrap (Z.of_nat (length ks)))) ∧
            NoDup ks ∧ d_map s' = foldr delete (d_map s0) ks ∧
            g_calls s' = handle_of (d_map s0) <$> ks) ∧
  (∃ s', clear s0 = (s', Ret tt) ∧ d_map s' = ∅ ∧ g_calls s' = []) ∧
  (∃ s', insertValuePtrMoveImp NoFault 0 false (Some 12) false s0 = (s', Ret false) ∧
         d_map s' !! 0 = Some (Some 12, 0) ∧ g_calls s' = []).
Proof.
  intros s0 s1. split.
  - destruct (C7_callback_once_per_departure s1 (λ _ _, false))
      as ((n & Hq & _ & Hc) & Hins & _).
    + apply wf_perform_all.
    + reflexivity.
    + assert (n = 2) as ->.
      { apply (f_equal length) in Hq. rewrite length_drop in Hq.
        change (length (d_queue (enforceHighWatermark s1).1)) with 1 in Hq.
        change (length (d_queue s1)) with 3 in Hq. lia. }
      split; [rewrite Hc; reflexivity|].
      rewrite Hins, Hc. reflexivity.
  - destruct (C7_callback_once_per_departure s0 (λ _ _, false))
      as (_ & _ & Herase & _ & Hpop & Hbulk & (s' & Hclear & Hm & _ & Hc) & Hrep).
    + apply wf_perform_all.
    + reflexivity.
    + split; [|split; [|split; [|split]]].
      * destruct (Herase 1 (Some 11) 1) as (_ & _ & ->); reflexivity.
      * destruct (Hpop 0 0 [(1, 1)] (Some 10)) as (_ & _ & ->); reflexivity.
      * destruct (Hbulk [1; 7; 1; 0]) as (ks & s2 & o & Hnd & _ & Hrun & Hm2 & Hc2 & Ho).
        destruct o as [n| |].
        -- destruct Ho as [-> _]. exists ks, s2.
           split; [exact Hrun|]. split; [exact Hnd|]. split; [exact Hm2|exact Hc2].
        -- destruct Ho. intros cb Hcb h v. vm_compute in Hcb. by injection Hcb as <-.
        -- destruct Ho.
      * exists s'. split; [exact Hclear|]. split; [exact Hm|]. rewrite Hc. reflexivity.
      * destruct (Hrep NoFault 0 false (Some 12) false (Some 10) 0)
          as (s2 & Hrun & Hm2 & Hc2).
        -- vm_compute. lia.
        -- reflexivity.
        -- discriminate.
        -- exists s2. split; [exact Hrun|]. split; [exact Hm2|]. rewrite Hc2. reflexivity.
Defined.

(** C8, at a cache the code can reach.  Low and high watermark 1, one entry,
    a callback set; the insert of a second key whose [d_map.emplace] throws
    leaves by the exception with the first entry evicted and handed to the
    callback: the cache is empty, not as it was. *)
Theorem C8_insert_throws_after_eviction :
  let s0 := perform_all [CallSetPostEvictionCallback (Some (λ _ _, false));
                         CallInsert false false NoFault 0 10]
                        (new_cache e_LRU 1 1) in
  let r := insert false false ThrowEmplace 1 11 s0 in
  d_map s0 !! 0 = Some (Some 10, 0) ∧ d_queue s0 = [(0, 0)] ∧
  r.2 = Throw ∧
  d_map r.1 = ∅ ∧ d_queue r.1 = [] ∧ g_calls r.1 = [Some 10] ∧
  d_map r.1 ≠ d_map s0 ∧ d_queue r.1 ≠ d_queue s0.
Proof. vm_compute. by split_and!. Qed.

Lemma C9_callback_throws_in_burst_witness :
  let s0 := perform_all [CallInsert false false NoFault 0 10;
                         CallInsert false false NoFault 1 11;
                         CallInsert false false NoFault 2 12;
                         CallSetPostEvictionCallback
                           (Some (λ _ v, bool_decide (v = Some 11)))]
                        (new_cache e_LRU 1 3) in
  let t0 := perform_all [CallInsert false false NoFault 0 10;
                         CallInsert false false NoFault 1 11;
                         CallInsert false false NoFault 2 12;
                         CallSetPostEvictionCallback (Some (λ _ _, true))]
                        (new_cache e_LRU 2 3) in
  (burst s0 = 3 ∧
   ∃ s', insertPtr false NoFault 3 (Some 13) s0 = (s', Throw) ∧
         size (d_map s') + 2 = size (d_map s0) ∧ queue_keys s' = [2] ∧
         g_calls s' = [Some 10; Some 11] ∧ coupled s') ∧
  (burst t0 = 2 ∧
   ∃ t', insertPtr false NoFault 3 (Some 13) t0 = (t', Throw) ∧
         S (size (d_map t')) = size (d_map t0) ∧ queue_keys t' = [1; 2] ∧
         g_calls t' = [Some 10] ∧ coupled t').
Proof.
  intros s0 t0. split; (split; [reflexivity|]).
  - destruct (C9_callback_throws_in_burst s0 1 1 1)
      as (_ & _ & _ & _ & _ & _ & _ & _ & _ & _ & _ & Hins & _ & Hq & _ & Hc & Hsz
          & _ & _ & Hcoupled).
    + apply wf_perform_all.
    + vm_compute. lia.
    + vm_compute. lia.
    + intros i Hi. assert (i = 0) as -> by lia. reflexivity.
    + reflexivity.
    + reflexivity.
    + eexists. split; [apply Hins|]. split; [exact Hsz|].
      split; [|split; [rewrite Hc; reflexivity | exact Hcoupled]].
      unfold queue_keys. rewrite Hq. reflexivity.
  - destruct (C9_callback_throws_in_burst t0 0 0 0)
      as (_ & _ & _ & _ & _ & _ & _ & _ & _ & _ & _ & Hins & _ & Hq & _ & Hc & Hsz
          & _ & _ & Hcoupled).
    + apply wf_perform_all.
    + vm_compute. lia.
    + vm_compute. lia.
    + intros i Hi. lia.
    + reflexivity.
    + reflexivity.
    + eexists. split; [apply Hins|]. split; [rewrite <- Hsz; lia|].
      split; [|split; [rewrite Hc; reflexivity | exact Hcoupled]].
      unfold queue_keys. rewrite Hq. reflexivity.
Defined.

Lemma C10_tryGetValue_miss_witness :
  let s0 := perform_all [CallInsert false false NoFault 0 10]
                        (new_cache e_LRU 6 7) in
  tryGetValue (Some 5) 1 true s0 = (s0, Ret (1%Z, Some 5)).
Proof.
  intros s0. apply (C10_tryGetValue_miss (Some 5) 1 true s0). reflexivity.
Defined.

(** * The further properties at concrete caches *)


Lemma X3_erase_witness :
  let s0 := perform_all [CallInsert false false NoFault 0 10;
                         CallInsert false false NoFault 1 11]
                        (new_cache e_LRU 6 7) in
  S (size (d_map (erase 0 s0).1)) = size (d_map s0) ∧
  queue_keys (erase 0 s0).1 = [1] ∧
  tryGetValue None 0 true (erase 0 s0).1 = ((erase 0 s0).1, Ret (1%Z, None)).
Proof.
  intros s0. pose proof (X3_erase 0 s0 (wf_perform_all _ _ _ _)) as Herase.
  assert (d_map s0 !! 0 = Some (Some 10, 0)) as Hk by reflexivity.
  rewrite Hk in Herase.
  destruct Herase as (_ & _ & _ & Hsz & Hget & _ & Hq).
  split; [exact Hsz|]. split; [|apply Hget].
  rewrite Hq. reflexivity.
Defined.

Lemma X4_popFront_witness :
  let s0 := perform_all [CallInsert false false NoFault 0 10;
                         CallInsert false false NoFault 1 11]
                        (new_cache e_FIFO 6 7) in
  d_queue s0 = [(0, 0); (1, 1)] ∧ popFront s0 = erase 0 s0.
Proof.
  intros s0. pose proof (X4_popFront s0 (wf_perform_all _ _ _ _)) as Hpop.
  assert (d_queue s0 = [(0, 0); (1, 1)]) as Hq by reflexivity.
  rewrite Hq in Hpop. split; [exact Hq | exact Hpop].
Defined.

Lemma X5_proctor_restores_witness :
  let s0 := perform_all [CallInsert false false NoFault 0 10]
                        (new_cache e_LRU 6 7) in
  proctor_destroy (queue_last (d_queue s0))
                  (set_queue (d_queue s0 ++ [(1, 5); (2, 6)]) s0) = (s0, Ret tt).
Proof.
  intros s0. apply (X5_proctor_restores s0 [(1, 5); (2, 6)]).
  intros c Hc Heq. assert (c = 0) as -> by (vm_compute in Heq; congruence).
  simpl in Hc. apply elem_of_cons in Hc as [Hc|Hc]; [discriminate|].
  apply elem_of_cons in Hc as [Hc|Hc]; [discriminate|].
  by apply elem_of_nil in Hc.
Defined.

Lemma X6_eraseBulk_witness :
  let s0 := perform_all [CallInsert false false NoFault 0 10;
                         CallInsert false false NoFault 1 11;
                         CallInsert false false NoFault 2 12]
                        (new_cache e_LRU 6 7) in
  eraseBulk [1; 7; 1; 0] s0 =
    (foldl (λ s k, (erase k s).1) s0 [1; 7; 1; 0], Ret 2%Z) ∧
  queue_keys (foldl (λ s k, (erase k s).1) s0 [1; 7; 1; 0]) = [2].
Proof.
  intros s0. destruct (X6_eraseBulk [1; 7; 1; 0] s0) as (_ & Hrun & _).
  - apply wf_perform_all.
  - intros cb Hcb. discriminate.
  - split; [|reflexivity]. rewrite Hrun; [reflexivity|]. by vm_compute.
Defined.

Lemma X7_insert_below_high_witness :
  let s0 := perform_all [CallInsert false false NoFault 0 10]
                        (new_cache e_FIFO 2 3) in
  ∃ s', perform (CallInsertPtr true NoFault 1 (Some 11)) s0 = (s', Ret tt) ∧
        queue_keys s' = [0; 1] ∧ size (d_map s') = 2.
Proof.
  intros s0.
  destruct (X7_insert_below_high (CallInsertPtr true NoFault 1 (Some 11)) 1 (Some 11) s0)
    as (s' & Hrun & _ & _ & Hq & Hsz & _).
  - reflexivity.
  - apply wf_perform_all.
  - vm_compute. lia.
  - exists s'. split; [exact Hrun|]. split.
    + rewrite Hq. reflexivity.
    + rewrite Hsz. reflexivity.
Defined.

Lemma X8_insertBulk_sequence_witness :
  ∃ n, n ≤ 2 ∧
       insertBulk true [] [(0, Some 10); (1, Some 11)] (new_cache e_LRU 1 1) =
         (perform_all [CallInsertPtr false NoFault 0 (Some 10);
                       CallInsertPtr false NoFault 1 (Some 11)]
                      (new_cache e_LRU 1 1), Ret (Z.of_nat n)).
Proof.
  destruct (X8_insertBulk_sequence true [(0, Some 10); (1, Some 11)]
              (new_cache (KEY:=nat) (VALUE:=nat) e_LRU 1 1))
    as (n & Hn & _ & Hrun).
  - apply wf_new_cache.
  - intros cb Hcb. discriminate.
  - exists n. split; [exact Hn|]. apply Hrun. by vm_compute.
Defined.

Lemma X9_insertBulk_below_high_witness :
  ∃ s', insertBulk false [] [(0, Some 10); (1, Some 11); (0, Some 12)]
                   (new_cache_unbounded 1000) = (s', Ret 2%Z) ∧
        (tryGetValue None 0 true s').2 = Ret (0%Z, Some 12) ∧
        g_calls s' = [].
Proof.
  destruct (X9_insertBulk_below_high false [(0, Some 10); (1, Some 11); (0, Some 12)]
              (new_cache_unbounded (KEY:=nat) (VALUE:=nat) 1000))
    as (s' & _ & Hrun & _ & Hm & Hc & Hget).
  - apply wf_new_cache.
  - simpl. rewrite map_size_empty. lia.
  - exists s'. split; [|split; [|exact Hc]].
    + rewrite Hrun by by vm_compute. do 2 f_equal.
      rewrite <- (map_size_fmap fst (d_map s')), Hm. reflexivity.
    + apply Hget. reflexivity.
Defined.

Lemma X10_visit_witness :
  let s0 := perform_all [CallInsert false false NoFault 0 10;
                         CallInsert false false NoFault 1 11;
                         CallInsert false false NoFault 2 12]
                        (new_cache e_LRU 6 7) in
  ∃ l, visit (λ k _, k <? 1) s0 = (s0, Ret l) ∧ l.*1 `prefix_of` queue_keys s0 ∧
       (length l < size (d_map s0) →
          ∃ k v, last l = Some (k, v) ∧ (k <? 1) = false).
Proof.
  intros s0.
  destruct (X10_visit (λ k _, k <? 1) s0) as (l & Hrun & Hpre & _ & _ & Hlast & _).
  - apply wf_perform_all.
  - assert (map_Forall (λ _ (e : option nat * nat), e.1 ≠ None) (d_map s0)) as Hall.
    { apply (bool_decide_unpack _). vm_compute. exact I. }
    intros k it Hk. exact (Hall k _ Hk eq_refl).
  - exists l. split; [exact Hrun|]. split; [exact Hpre | exact Hlast].
Defined.

Lemma X11_lru_hit_outlives_insert_witness :
  let s0 := perform_all [CallInsert false false NoFault 0 10;
                         CallInsert false false NoFault 1 11;
                         CallInsert false false NoFault 2 12]
                        (new_cache e_LRU 2 3) in
  let s2 := (perform (CallInsert false false NoFault 3 13)
                     (tryGetValue None 0 true s0).1).1 in
  (tryGetValue None 0 false s2).2 = Ret (0%Z, Some 10) ∧ queue_keys s2 = [0; 3].
Proof.
  intros s0 s2.
  destruct (X11_lru_hit_outlives_insert (CallInsert false false NoFault 3 13)
              0 3 (Some 10) (Some 13) None 0 s0) as (_ & Hget).
  - apply wf_perform_all.
  - intros cb Hcb. discriminate.
  - reflexivity.
  - vm_compute. lia.
  - reflexivity.
  - reflexivity.
  - discriminate.
  - split; [apply Hget | reflexivity].
Defined.

Lemma X12_equal_watermarks_cap_witness :
  let s0 := perform_all [CallSetPostEvictionCallback (Some (λ _ _, false));
                         CallInsert false false NoFault 0 10;
                         CallInsert false false NoFault 1 11]
                        (new_cache e_FIFO 2 2) in
  ∃ s', perform (CallInsert true false NoFault 2 12) s0 = (s', Ret tt) ∧
        size (d_map s') = 2 ∧ queue_keys s' = [1; 2] ∧ g_calls s' = [Some 10].
Proof.
  intros s0.
  destruct (X12_equal_watermarks_cap (CallInsert true false NoFault 2 12)
              2 0 (Some 12) 0 [(1, 1)] s0)
    as (s' & Hrun & Hsz & _ & _ & _ & Hq & Hc).
  - reflexivity.
  - apply wf_perform_all.
  - intros cb Hcb h v. vm_compute in Hcb. by injection Hcb as <-.
  - vm_compute. lia.
  - reflexivity.
  - reflexivity.
  - reflexivity.
  - reflexivity.
  - exists s'. split; [exact Hrun|]. split; [|split].
    + rewrite Hsz. reflexivity.
    + exact Hq.
    + rewrite Hc. reflexivity.
Defined.

Lemma X13_calls_return_witness :
  let s0 := perform_all [CallSetPostEvictionCallback (Some (λ _ _, true));
                         CallInsert false false NoFault 0 10;
                         CallSetPostEvictionCallback None]
                        (new_cache e_LRU 6 7) in
  (perform (CallErase 0) s0).2 = Ret tt.
Proof.
  intros s0. apply (X13_calls_return (CallErase 0) s0).
  - apply wf_perform_all.
  - intros cb Hcb. discriminate.
  - exact I.
  - intros visitor. discriminate.
Defined.

Lemma X14_insert_throw_below_high_witness :
  let s0 := perform_all [CallInsert false false NoFault 0 10]
                        (new_cache e_LRU 2 3) in
  let r := insertPtr false ThrowEmplace 1 (Some 11) s0 in
  r.2 = Throw ∧ d_map r.1 = d_map s0 ∧ d_queue r.1 = d_queue s0.
Proof.
  intros s0 r.
  destruct (X14_insert_throw_below_high s0) as (_ & Hptr & _).
  - apply wf_perform_all.
  - vm_compute. lia.
  - split; [reflexivity|].
    destruct (Hptr false ThrowEmplace 1 (Some 11)) as (Hm & Hq & _); [reflexivity|].
    split; [exact Hm | exact Hq].
Defined.

Lemma X15_callback_replaced_witness :
  let s := perform_all [CallSetPostEvictionCallback (Some (λ _ _, true));
                        CallInsert false false NoFault 0 10]
                       (new_cache e_LRU 6 7) in
  ∃ s0, setPostEvictionCallback None s = (s0, Ret tt) ∧
        (erase 0 s0).2 = Ret 0%Z ∧ g_calls (erase 0 s0).1 = [].
Proof.
  intros s.
  destruct (X15_callback_replaced None 0 (Some 10) 0 s)
    as (s0 & Hset & _ & _ & _ & _ & Ho & Hc).
  - apply wf_perform_all.
  - reflexivity.
  - exists s0. split; [exact Hset|]. split; [exact Ho|].
    rewrite Hc. reflexivity.
Defined.
